(** * Pipeline: a ring buffer and a three-stage channel pipeline (cmd/main.go)

    The development follows the source file top to bottom.  Part I embeds
    the program: the [RingIntBuffer] methods as programs of a small state
    and fault monad that records under which lock status every field is
    touched, the pipeline wiring as programs of a monad that allocates
    channels and collects the goroutines started, and the goroutine bodies
    as step functions driven by the choices of the Go scheduler.  Part II
    states and proves the properties. *)

From Stdlib Require Import ZArith Lia Bool.
From stdpp Require Import base tactics option list strings.

Local Open Scope Z_scope.

(* ===================================================================== *)
(** * Part I: the program                                                 *)
(* ===================================================================== *)

(** ** Go values *)

(** [int] is a 64-bit signed integer; arithmetic wraps around. *)
Definition int_min : Z := Eval compute in - 2 ^ 63.
Definition int_max : Z := Eval compute in 2 ^ 63 - 1.
Definition int_wrap (z : Z) : Z :=
  (z - int_min) mod (int_max - int_min + 1) + int_min.

(** What stops a goroutine, or the whole process, abnormally. *)
Inductive fault : Type :=
  | DivideByZero            (* integer divide by zero *)
  | IndexOutOfRange         (* a[i] with i outside 0 .. len(a)-1 *)
  | SliceBoundsOutOfRange   (* a[:hi] with hi outside 0 .. cap(a) *)
  | MakeSliceLenOutOfRange  (* make([]int, n) with n < 0 *)
  | LockOfLockedMutex       (* Lock by the holder itself: blocks for ever *)
  | UnlockOfUnlockedMutex   (* fatal error: unlock of unlocked mutex *)
  | SendOnClosedChannel
  | CloseOfClosedChannel
  | NegativeWaitGroupCounter.

Inductive result (A : Type) : Type :=
  | Ok (a : A)
  | Fault (f : fault).
Arguments Ok {A} a.
Arguments Fault {A} f.

(** The constants of the program.  The drain interval is a duration; the
    models below only use the order of events. *)
Definition bufferSize : Z := 10.

(** ** RingIntBuffer *)

(** The struct.  [array] is the slice made by the constructor (length and
    capacity equal), [mu] is the mutex: [true] when it is held. *)
Record RingIntBuffer : Type := mkRing {
  array : list Z;
  pos   : Z;
  size  : Z;
  mu    : bool
}.

(** Every load and store of a field of the shared struct is recorded with
    the status of the mutex at that moment. *)
Inductive field : Type := Farray | Fpos | Fsize.
Inductive access_kind : Type := Load | Store.
Record access : Type := mkAccess {
  a_field  : field;
  a_kind   : access_kind;
  a_locked : bool
}.

Record world : Type := mkWorld {
  obj : RingIntBuffer;
  log : list access
}.

(** Method bodies are programs over the receiver and the access log. *)
Definition M (A : Type) : Type := world -> result (A * world).

Definition ret {A : Type} (a : A) : M A := fun w => Ok (a, w).

Definition bind {A B : Type} (m : M A) (k : A -> M B) : M B :=
  fun w => match m w with
           | Ok (a, w') => k a w'
           | Fault f => Fault f
           end.

Declare Scope method_scope.
Delimit Scope method_scope with method.
Notation "x <- m ;; k" := (bind m (fun x => k))
  (at level 100, m at next level, k at level 200, right associativity)
  : method_scope.
Notation "m ;; k" := (bind m (fun _ => k))
  (at level 100, k at level 200, right associativity) : method_scope.

Definition panic {A : Type} (f : fault) : M A := fun _ => Fault f.

Definition touch (fld : field) (k : access_kind) : M unit :=
  fun w => Ok (tt, mkWorld (obj w)
                     (log w ++ [mkAccess fld k (mu (obj w))])).

Definition get_obj : M RingIntBuffer := fun w => Ok (obj w, w).
Definition put_obj (r : RingIntBuffer) : M unit :=
  fun w => Ok (tt, mkWorld r (log w)).

(** [r.mu.Lock()]: on a free mutex takes it; the models below run one
    method at a time, where a held mutex means the caller waits for
    itself. *)
Definition Lock : M unit :=
  (r <- get_obj ;;
   if mu r then panic LockOfLockedMutex
   else put_obj (mkRing (array r) (pos r) (size r) true))%method.

Definition Unlock : M unit :=
  (r <- get_obj ;;
   if mu r then put_obj (mkRing (array r) (pos r) (size r) false)
   else panic UnlockOfUnlockedMutex)%method.

(** [defer d] before [body]: [d] runs when [body] returns.  When [body]
    panics, [d] runs as well and the panic goes on to end the process;
    nothing of the state is observed afterwards. *)
Definition defer {A : Type} (d : M unit) (body : M A) : M A :=
  (a <- body ;; d ;; ret a)%method.

Definition load_pos : M Z :=
  (touch Fpos Load ;; r <- get_obj ;; ret (pos r))%method.
Definition load_size : M Z :=
  (touch Fsize Load ;; r <- get_obj ;; ret (size r))%method.
Definition load_array : M (list Z) :=
  (touch Farray Load ;; r <- get_obj ;; ret (array r))%method.

Definition store_pos (p : Z) : M unit :=
  (touch Fpos Store ;; r <- get_obj ;;
   put_obj (mkRing (array r) p (size r) (mu r)))%method.

(** [a % b] on int: truncated remainder, panics when [b] is zero. *)
Definition int_rem (a b : Z) : M Z :=
  if b =? 0 then panic DivideByZero else ret (int_wrap (Z.rem a b)).

(** [r.array[i] = el]. *)
Definition store_elem (i el : Z) : M unit :=
  (a <- load_array ;;
   if (0 <=? i) && (i <? Z.of_nat (length a)) then
     touch Farray Store ;; r <- get_obj ;;
     put_obj (mkRing (<[Z.to_nat i := el]> (array r)) (pos r) (size r) (mu r))
   else panic IndexOutOfRange)%method.

(** [a[:hi]]: the first [hi] elements, [hi] up to the capacity. *)
Definition slice_upto (a : list Z) (hi : Z) : M (list Z) :=
  if (0 <=? hi) && (hi <=? Z.of_nat (length a))
  then ret (take (Z.to_nat hi) a)
  else panic SliceBoundsOutOfRange.

(** [NewRingIntBuffer]: [make] panics on a negative length.  Memory is
    not bounded here: every length from 0 on is granted. *)
Definition NewRingIntBuffer (size : Z) : result RingIntBuffer :=
  if size <? 0 then Fault MakeSliceLenOutOfRange
  else Ok (mkRing (replicate (Z.to_nat size) 0) (-1) size false).

(** [Push]. *)
Definition Push (el : Z) : M unit :=
  (Lock ;;
   defer Unlock
     (p <- load_pos ;;
      n <- load_size ;;
      q <- int_rem (int_wrap (p + 1)) n ;;
      store_pos q ;;
      i <- load_pos ;;
      store_elem i el))%method.

(** The part of [Get] after the emptiness test. *)
Definition Get_locked : M (option (list Z)) :=
  (Lock ;;
   defer Unlock
     (a <- load_array ;;
      p <- load_pos ;;
      output <- slice_upto a (int_wrap (p + 1)) ;;
      store_pos (-1) ;;
      ret (Some output)))%method.

(** [Get].  [None] is the nil slice.  The slice returned shares its
    storage with [r.array]; the list is what it holds when [Get] returns. *)
Definition Get : M (option (list Z)) :=
  (p <- load_pos ;;
   if p <? 0 then ret None else Get_locked)%method.

(** A method call on [r] from a caller that holds nothing. *)
Definition call {A : Type} (m : M A) (r : RingIntBuffer)
  : result (A * RingIntBuffer) :=
  match m (mkWorld r []) with
  | Ok (a, w) => Ok (a, obj w)
  | Fault f => Fault f
  end.

(** The accesses a call makes, in order. *)
Definition accesses {A : Type} (m : M A) (r : RingIntBuffer)
  : result (list access) :=
  match m (mkWorld r []) with
  | Ok (_, w) => Ok (log w)
  | Fault f => Fault f
  end.

(** [Push] of each element of a list in turn. *)
Fixpoint push_all (els : list Z) (r : RingIntBuffer) : result RingIntBuffer :=
  match els with
  | [] => Ok r
  | el :: rest =>
      match call (Push el) r with
      | Ok (_, r') => push_all rest r'
      | Fault f => Fault f
      end
  end.

(** The lock discipline: every recorded access was made with the mutex
    held. *)
Definition all_locked (l : list access) : bool := forallb a_locked l.

(** The state invariant of a buffer between two calls. *)
Definition ring_ok (r : RingIntBuffer) : Prop :=
  mu r = false /\
  size r = Z.of_nat (length (array r)) /\
  1 <= size r <= int_max /\
  -1 <= pos r < size r.

(** The state a [Push] leaves behind when nothing goes wrong, and the
    state and result of a [Get]. *)
Definition pushed (el : Z) (r : RingIntBuffer) : RingIntBuffer :=
  let q := Z.rem (pos r + 1) (size r) in
  mkRing (<[Z.to_nat q := el]> (array r)) q (size r) false.

Definition drained (r : RingIntBuffer) : RingIntBuffer :=
  mkRing (array r) (-1) (size r) false.

(** A fresh buffer of capacity [n], the elements pushed in order, then one
    [Get]: the result of the [Get] and the buffer it leaves. *)
Definition fill_and_drain (n : Z) (els : list Z)
  : result (option (list Z) * RingIntBuffer) :=
  match NewRingIntBuffer n with
  | Ok r0 =>
      match push_all els r0 with
      | Ok r1 => call Get r1
      | Fault f => Fault f
      end
  | Fault f => Fault f
  end.

(** What the drain is said to return after [size + k] pushes,
    [0 < k < size], [old] the first [size] elements pushed and [new] the
    last [k]: [size] elements, the first [k] pushed overwritten by the
    last [k].  This follows the words of the capacity property, not the
    code of [Get]. *)
Definition claimed_drain (old new : list Z) : list Z :=
  new ++ drop (length new) old.

(** Sequences of calls made by a single caller. *)
Inductive op : Type :=
  | OpPush (el : Z)
  | OpGet.

Fixpoint run_ops (ops : list op) (r : RingIntBuffer) : result RingIntBuffer :=
  match ops with
  | [] => Ok r
  | OpPush el :: rest =>
      match call (Push el) r with
      | Ok (_, r') => run_ops rest r'
      | Fault f => Fault f
      end
  | OpGet :: rest =>
      match call Get r with
      | Ok (_, r') => run_ops rest r'
      | Fault f => Fault f
      end
  end.

(** ** Channels *)

(** What a goroutine does to a channel it writes: the history of an
    output channel is the list of these operations, oldest first. *)
Inductive chan_op : Type :=
  | ChSend (v : Z)
  | ChClose.

Definition is_close (o : chan_op) : bool :=
  match o with ChClose => true | ChSend _ => false end.

Definition closed (h : list chan_op) : bool := existsb is_close h.

(** The values sent, in order. *)
Fixpoint sent (h : list chan_op) : list Z :=
  match h with
  | [] => []
  | ChSend v :: h' => v :: sent h'
  | ChClose :: h' => sent h'
  end.

(** [output <- v] and [close(output)]; both panic on a closed channel. *)
Definition chan_send (v : Z) (h : list chan_op) : result (list chan_op) :=
  if closed h then Fault SendOnClosedChannel else Ok (h ++ [ChSend v]).

Definition chan_close (h : list chan_op) : result (list chan_op) :=
  if closed h then Fault CloseOfClosedChannel else Ok (h ++ [ChClose]).

(** ** Goroutines as step functions

    A goroutine body is a step function: the event names the alternative
    the scheduler lets the goroutine take next (which case of a [select]
    fires, which goroutine moves).  [Stuck] says the alternative is not
    open in that state, [Crash] that taking it panics. *)
Inductive outcome (S : Type) : Type :=
  | Next (s : S)
  | Stuck
  | Crash (f : fault).
Arguments Next {S} s.
Arguments Stuck {S}.
Arguments Crash {S} f.

Section Run.
Context {S E : Type}.
Variable step : E -> S -> outcome S.

(** A schedule is the list of the alternatives taken, in order. *)
Fixpoint run (sched : list E) (s : S) : outcome S :=
  match sched with
  | [] => Next s
  | e :: rest =>
      match step e s with
      | Next s' => run rest s'
      | Stuck => Stuck
      | Crash f => Crash f
      end
  end.
End Run.

(** ** The two filter stages

    [negativeFilterStageInt] and [specialFilterStageInt] start the same
    goroutine up to the test applied to the value received.  The input
    channel is given by the values still to arrive on it, after which it
    is closed; the reader of the output channel is ready whenever a value
    is offered. *)
Inductive filter_pc : Type :=
  | FSelect                (* at the outer select *)
  | FSending (data : Z)    (* at the inner select, [data] in hand *)
  | FReturned.             (* returned; the deferred close has run *)

Record filter_state : Type := mkFilter {
  f_input  : list Z;
  f_done   : bool;           (* [done] has been closed *)
  f_pc     : filter_pc;
  f_output : list chan_op
}.

Inductive filter_event : Type :=
  | FCancel       (* the source closes [done] *)
  | FTakeInput    (* outer select: [case data, ok := <-input] *)
  | FTakeSend     (* inner select: [case output <- data] *)
  | FTakeDone.    (* either select: [case <-done] *)

(** [return] with [defer close(output)]. *)
Definition filter_return (s : filter_state) : outcome filter_state :=
  match chan_close (f_output s) with
  | Ok h => Next (mkFilter (f_input s) (f_done s) FReturned h)
  | Fault f => Crash f
  end.

Definition filter_step (keep : Z -> bool) (e : filter_event)
    (s : filter_state) : outcome filter_state :=
  match e, f_pc s with
  | FCancel, _ =>
      if f_done s then Stuck
      else Next (mkFilter (f_input s) true (f_pc s) (f_output s))
  | FTakeInput, FSelect =>
      match f_input s with
      | [] => filter_return s                       (* !ok *)
      | data :: rest =>
          if keep data
          then Next (mkFilter rest (f_done s) (FSending data) (f_output s))
          else Next (mkFilter rest (f_done s) FSelect (f_output s))
      end
  | FTakeSend, FSending data =>
      match chan_send data (f_output s) with
      | Ok h => Next (mkFilter (f_input s) (f_done s) FSelect h)
      | Fault f => Crash f
      end
  | FTakeDone, FSelect | FTakeDone, FSending _ =>
      if f_done s then filter_return s else Stuck
  | _, _ => Stuck
  end.

Definition filter_init (input : list Z) : filter_state :=
  mkFilter input false FSelect [].

(** The tests of the two stages: [data >= 0], and
    [data != 0 && data%3 == 0] with the truncated remainder of Go. *)
Definition negative_keep (data : Z) : bool := 0 <=? data.
Definition special_keep (data : Z) : bool :=
  negb (data =? 0) && (Z.rem data 3 =? 0).

(** The schedule without cancellation: every value is received and, when
    kept, sent; then the closed input is seen. *)
Fixpoint filter_schedule (keep : Z -> bool) (input : list Z)
  : list filter_event :=
  match input with
  | [] => [FTakeInput]
  | data :: rest =>
      if keep data
      then FTakeInput :: FTakeSend :: filter_schedule keep rest
      else FTakeInput :: filter_schedule keep rest
  end.

(** ** Starting goroutines

    A stage function makes its output channel, starts its goroutines and
    returns the channel.  Such code is a program over the allocation
    counter that collects, in order, what it starts: the [go] statements
    and the [wg.Add] calls made on behalf of the goroutines. *)
Definition chan : Type := nat.   (* a channel made by [make(chan ...)] *)
Definition ref : Type := nat.    (* a RingIntBuffer or a WaitGroup *)

(** The function literals of the program, with the variables they
    capture. *)
Inductive gofunc : Type :=
  | SourceReader (c done : chan)
  | FilterWorker (keep : Z -> bool) (input done output : chan)
  | BufferCollector (input done : chan) (buffer wg : ref)
  | BufferDrainer (done output : chan) (buffer wg : ref)
  | BufferCloser (wg : ref) (output : chan).

Inductive action : Type :=
  | ActGo (f : gofunc)
  | ActWgAdd (wg : ref) (delta : Z).

Definition Go (A : Type) : Type := nat -> A * nat * list action.

Definition go_ret {A : Type} (a : A) : Go A := fun n => (a, n, []).

Definition go_bind {A B : Type} (m : Go A) (k : A -> Go B) : Go B :=
  fun n =>
    let '(a, n1, acts1) := m n in
    let '(b, n2, acts2) := k a n1 in
    (b, n2, acts1 ++ acts2).

Declare Scope go_scope.
Delimit Scope go_scope with go.
Notation "x <- m ;; k" := (go_bind m (fun x => k))
  (at level 100, m at next level, k at level 200, right associativity)
  : go_scope.
Notation "m ;; k" := (go_bind m (fun _ => k))
  (at level 100, k at level 200, right associativity) : go_scope.

Definition make_chan : Go chan := fun n => (n, S n, []).
Definition new_object : Go ref := fun n => (n, S n, []).
Definition go (f : gofunc) : Go unit := fun n => (tt, n, [ActGo f]).
Definition wg_Add (wg : ref) (delta : Z) : Go unit :=
  fun n => (tt, n, [ActWgAdd wg delta]).

(** The value, and the actions, of a program run at counter [n]. *)
Definition value {A : Type} (m : Go A) (n : nat) : A := fst (fst (m n)).
Definition counter {A : Type} (m : Go A) (n : nat) : nat := snd (fst (m n)).
Definition actions {A : Type} (m : Go A) (n : nat) : list action := snd (m n).

(** ** PipelineInt *)

Definition StageInt : Type := chan -> chan -> Go chan.

Record PipelineInt : Type := mkPipeline {
  stages : list StageInt;
  done   : chan
}.

Definition NewPipelineInt (done : chan) (stages : list StageInt)
  : PipelineInt :=
  mkPipeline stages done.

(** The loop of [Run]: [for _, stage := range p.stages { c = stage(c, p.done) }]. *)
Fixpoint range_stages (stages : list StageInt) (done : chan) (c : chan)
  : Go chan :=
  match stages with
  | [] => go_ret c
  | stage :: rest =>
      (c' <- stage c done ;; range_stages rest done c')%go
  end.

Definition Run (p : PipelineInt) (source : chan) : Go chan :=
  range_stages (stages p) (done p) source.

(** ** The stage functions *)

Definition dataSource : Go (chan * chan) :=
  (c <- make_chan ;;
   done <- make_chan ;;
   go (SourceReader c done) ;;
   go_ret (c, done))%go.

Definition negativeFilterStageInt : StageInt := fun input done =>
  (output <- make_chan ;;
   go (FilterWorker negative_keep input done output) ;;
   go_ret output)%go.

Definition specialFilterStageInt : StageInt := fun input done =>
  (output <- make_chan ;;
   go (FilterWorker special_keep input done output) ;;
   go_ret output)%go.

Definition bufferStageInt : StageInt := fun input done =>
  (output <- make_chan ;;
   buffer <- new_object ;;
   wg <- new_object ;;
   wg_Add wg 1 ;;
   go (BufferCollector input done buffer wg) ;;
   wg_Add wg 1 ;;
   go (BufferDrainer done output buffer wg) ;;
   go (BufferCloser wg output) ;;
   go_ret output)%go.

(** [main] up to the call of [consumer]: the channel the consumer reads. *)
Definition main_wiring : Go chan :=
  (sd <- dataSource ;;
   let pipeline :=
     NewPipelineInt (snd sd)
       [negativeFilterStageInt; specialFilterStageInt; bufferStageInt] in
   Run pipeline (fst sd))%go.

(** ** The buffering stage

    The stage function and its three goroutines share the buffer, the
    WaitGroup and the output channel.  One state holds them all; an event
    moves the stage function by one of its statements, or one goroutine
    to its next point. *)
Inductive collector_pc : Type :=
  | CNotStarted
  | CSelect                 (* at the select *)
  | CPush (data : Z)        (* received [data], before [buffer.Push] *)
  | CReturned.              (* returned; the deferred [wg.Done] has run *)

Inductive drainer_pc : Type :=
  | DNotStarted
  | DSelect                     (* at the outer select *)
  | DGet                        (* in [Get], [pos < 0] found false *)
  | DRange (i n : nat)          (* [range data], next index [i] of [n] *)
  | DSending (i n : nat) (v : Z)  (* at the inner select, [v = data[i]] *)
  | DReturned.

Inductive closer_pc : Type :=
  | KNotStarted
  | KWait                   (* in [wg.Wait] *)
  | KClose                  (* before [close(output)] *)
  | KReturned.

Record buffer_state : Type := mkBuffer {
  b_input     : list Z;          (* values still to arrive, then closed *)
  b_done      : bool;            (* [done] has been closed *)
  b_buffer    : RingIntBuffer;
  b_wg        : Z;               (* the WaitGroup counter *)
  b_launch    : list action;     (* what the stage function has yet to do *)
  b_collector : collector_pc;
  b_drainer   : drainer_pc;
  b_closer    : closer_pc;
  b_output    : list chan_op
}.

Definition with_input (x : list Z) (s : buffer_state) : buffer_state :=
  mkBuffer x (b_done s) (b_buffer s) (b_wg s) (b_launch s)
    (b_collector s) (b_drainer s) (b_closer s) (b_output s).
Definition with_done (x : bool) (s : buffer_state) : buffer_state :=
  mkBuffer (b_input s) x (b_buffer s) (b_wg s) (b_launch s)
    (b_collector s) (b_drainer s) (b_closer s) (b_output s).
Definition with_buffer (x : RingIntBuffer) (s : buffer_state) : buffer_state :=
  mkBuffer (b_input s) (b_done s) x (b_wg s) (b_launch s)
    (b_collector s) (b_drainer s) (b_closer s) (b_output s).
Definition with_wg (x : Z) (s : buffer_state) : buffer_state :=
  mkBuffer (b_input s) (b_done s) (b_buffer s) x (b_launch s)
    (b_collector s) (b_drainer s) (b_closer s) (b_output s).
Definition with_launch (x : list action) (s : buffer_state) : buffer_state :=
  mkBuffer (b_input s) (b_done s) (b_buffer s) (b_wg s) x
    (b_collector s) (b_drainer s) (b_closer s) (b_output s).
Definition with_collector (x : collector_pc) (s : buffer_state) : buffer_state :=
  mkBuffer (b_input s) (b_done s) (b_buffer s) (b_wg s) (b_launch s)
    x (b_drainer s) (b_closer s) (b_output s).
Definition with_drainer (x : drainer_pc) (s : buffer_state) : buffer_state :=
  mkBuffer (b_input s) (b_done s) (b_buffer s) (b_wg s) (b_launch s)
    (b_collector s) x (b_closer s) (b_output s).
Definition with_closer (x : closer_pc) (s : buffer_state) : buffer_state :=
  mkBuffer (b_input s) (b_done s) (b_buffer s) (b_wg s) (b_launch s)
    (b_collector s) (b_drainer s) x (b_output s).
Definition with_output (x : list chan_op) (s : buffer_state) : buffer_state :=
  mkBuffer (b_input s) (b_done s) (b_buffer s) (b_wg s) (b_launch s)
    (b_collector s) (b_drainer s) (b_closer s) x.

Inductive buffer_event : Type :=
  | BCancel          (* the source closes [done] *)
  | BLaunch          (* the stage function: its next [wg.Add] or [go] *)
  | BCollectorInput  (* collector select: [case data, ok := <-input] *)
  | BCollectorPush   (* collector: [buffer.Push(data)] *)
  | BCollectorDone   (* collector select: [case <-done] *)
  | BDrainerTimer    (* drainer outer select: [case <-time.After(...)],
                        then the test [r.pos < 0] of [Get] *)
  | BDrainerGet      (* drainer: the rest of [Get], from [r.mu.Lock()] *)
  | BDrainerLoad     (* drainer: [v] takes [data[i]] *)
  | BDrainerSend     (* drainer inner select: [case output <- v] *)
  | BDrainerDone     (* drainer, either select: [case <-done] *)
  | BCloserWait      (* closer: [wg.Wait] returns *)
  | BCloserClose.    (* closer: [close(output)] *)

(** [wg.Add(delta)] and [wg.Done()]. *)
Definition wg_add (delta n : Z) : result Z :=
  if n + delta <? 0 then Fault NegativeWaitGroupCounter else Ok (n + delta).

(** [return] of a worker with [defer wg.Done()]. *)
Definition collector_return (s : buffer_state) : outcome buffer_state :=
  match wg_add (-1) (b_wg s) with
  | Ok n => Next (with_wg n (with_collector CReturned s))
  | Fault f => Crash f
  end.

Definition drainer_return (s : buffer_state) : outcome buffer_state :=
  match wg_add (-1) (b_wg s) with
  | Ok n => Next (with_wg n (with_drainer DReturned s))
  | Fault f => Crash f
  end.

(** The head of [for _, v := range data]: index [i] of [n] is next, or
    the loop is over and the drainer is back at its outer select. *)
Definition range_from (i n : nat) : drainer_pc :=
  if (i <? n)%nat then DRange i n else DSelect.

Definition buffer_launch (s : buffer_state) : outcome buffer_state :=
  match b_launch s with
  | [] => Stuck
  | ActWgAdd _ delta :: rest =>
      match wg_add delta (b_wg s) with
      | Ok n => Next (with_launch rest (with_wg n s))
      | Fault f => Crash f
      end
  | ActGo (BufferCollector _ _ _ _) :: rest =>
      Next (with_launch rest (with_collector CSelect s))
  | ActGo (BufferDrainer _ _ _ _) :: rest =>
      Next (with_launch rest (with_drainer DSelect s))
  | ActGo (BufferCloser _ _) :: rest =>
      Next (with_launch rest (with_closer KWait s))
  | ActGo _ :: _ => Stuck
  end.

(** [Push] is one step: it runs under the mutex from its first access to
    its last.  [Get] is two: its test of [pos] comes before it takes the
    mutex, and the collector may push in between.  The slice [Get]
    returns shares its storage with the array of the buffer, so [data[i]]
    is read from the array as it is at that moment. *)
Definition buffer_step (e : buffer_event) (s : buffer_state)
  : outcome buffer_state :=
  match e with
  | BCancel =>
      if b_done s then Stuck else Next (with_done true s)
  | BLaunch => buffer_launch s
  | BCollectorInput =>
      match b_collector s with
      | CSelect =>
          match b_input s with
          | [] => collector_return s                           (* !ok *)
          | data :: rest =>
              Next (with_input rest (with_collector (CPush data) s))
          end
      | _ => Stuck
      end
  | BCollectorPush =>
      match b_collector s with
      | CPush data =>
          match call (Push data) (b_buffer s) with
          | Ok (_, r) => Next (with_buffer r (with_collector CSelect s))
          | Fault f => Crash f
          end
      | _ => Stuck
      end
  | BCollectorDone =>
      match b_collector s with
      | CSelect => if b_done s then collector_return s else Stuck
      | _ => Stuck
      end
  | BDrainerTimer =>
      match b_drainer s with
      | DSelect =>
          match call load_pos (b_buffer s) with
          | Ok (p, r) =>
              if p <? 0
              then Next (with_buffer r s)          (* [data == nil] *)
              else Next (with_buffer r (with_drainer DGet s))
          | Fault f => Crash f
          end
      | _ => Stuck
      end
  | BDrainerGet =>
      match b_drainer s with
      | DGet =>
          match call Get_locked (b_buffer s) with
          | Ok (None, r) => Next (with_buffer r (with_drainer DSelect s))
          | Ok (Some data, r) =>
              Next (with_buffer r (with_drainer (range_from 0 (length data)) s))
          | Fault f => Crash f
          end
      | _ => Stuck
      end
  | BDrainerLoad =>
      match b_drainer s with
      | DRange i n =>
          match array (b_buffer s) !! i with
          | Some v => Next (with_drainer (DSending i n v) s)
          | None => Crash IndexOutOfRange
          end
      | _ => Stuck
      end
  | BDrainerSend =>
      match b_drainer s with
      | DSending i n v =>
          match chan_send v (b_output s) with
          | Ok h => Next (with_output h (with_drainer (range_from (S i) n) s))
          | Fault f => Crash f
          end
      | _ => Stuck
      end
  | BDrainerDone =>
      match b_drainer s with
      | DSelect | DSending _ _ _ =>
          if b_done s then drainer_return s else Stuck
      | _ => Stuck
      end
  | BCloserWait =>
      match b_closer s with
      | KWait => if b_wg s =? 0 then Next (with_closer KClose s) else Stuck
      | _ => Stuck
      end
  | BCloserClose =>
      match b_closer s with
      | KClose =>
          match chan_close (b_output s) with
          | Ok h => Next (with_closer KReturned (with_output h s))
          | Fault f => Crash f
          end
      | _ => Stuck
      end
  end.

(** The stage right after [bufferStageInt(input, done)] has made the
    output channel, the buffer [r] and the WaitGroup: [acts] is what the
    stage function goes on to do. *)
Definition buffer_init (acts : list action) (r : RingIntBuffer)
    (input : list Z) : buffer_state :=
  mkBuffer input false r 0 acts CNotStarted DNotStarted KNotStarted [].

(** The schedule of the end-to-end scenario: the stage function runs
    through, the collector takes and pushes every value, then the timer
    fires once and the drainer sends what [Get] returned. *)
Definition collect_schedule (n : nat) : list buffer_event :=
  concat (replicate n [BCollectorInput; BCollectorPush]).
Definition emit_schedule (n : nat) : list buffer_event :=
  [BDrainerTimer; BDrainerGet] ++
  concat (replicate n [BDrainerLoad; BDrainerSend]).
Definition launch_schedule : list buffer_event :=
  [BLaunch; BLaunch; BLaunch; BLaunch; BLaunch].

(** What holds of a filter goroutine started on [input0] at every moment
    of every schedule: the values sent so far, followed by those still to
    be sent, are the kept values of [input0]. *)
Definition filter_inv (keep : Z -> bool) (input0 : list Z)
    (s : filter_state) : Prop :=
  exists vs : list Z,
    match f_pc s with
    | FSelect =>
        f_output s = map ChSend vs /\
        vs ++ List.filter keep (f_input s) = List.filter keep input0
    | FSending d =>
        f_output s = map ChSend vs /\ keep d = true /\
        vs ++ d :: List.filter keep (f_input s) = List.filter keep input0
    | FReturned =>
        f_output s = map ChSend vs ++ [ChClose] /\
        vs `prefix_of` List.filter keep input0 /\
        (f_done s = false -> vs = List.filter keep input0)
    end.

(** What holds of the buffering stage at every moment of every schedule.
    [acts] are the statements of the stage function. *)
Definition buffer_program (acts : list action) : Prop :=
  exists (i d o : chan) (b w : ref),
    acts = [ActWgAdd w 1; ActGo (BufferCollector i d b w);
            ActWgAdd w 1; ActGo (BufferDrainer d o b w);
            ActGo (BufferCloser w o)].

Definition started_c (pc : collector_pc) : bool :=
  match pc with CNotStarted => false | _ => true end.
Definition started_d (pc : drainer_pc) : bool :=
  match pc with DNotStarted => false | _ => true end.
Definition started_k (pc : closer_pc) : bool :=
  match pc with KNotStarted => false | _ => true end.
Definition returned_c (pc : collector_pc) : Z :=
  match pc with CReturned => 1 | _ => 0 end.
Definition returned_d (pc : drainer_pc) : Z :=
  match pc with DReturned => 1 | _ => 0 end.
Definition past_wait (pc : closer_pc) : bool :=
  match pc with KClose | KReturned => true | _ => false end.
Definition close_mark (pc : closer_pc) : list chan_op :=
  match pc with KReturned => [ChClose] | _ => [] end.

(** The calls of [wg.Add(1)] among the first [k] statements. *)
Definition adds (k : nat) : Z :=
  Z.b2z (1 <=? k)%nat + Z.b2z (3 <=? k)%nat.

Definition drainer_in_range (pc : drainer_pc) (r : RingIntBuffer) : Prop :=
  match pc with
  | DRange i n | DSending i n _ => (i < n)%nat /\ Z.of_nat n <= size r
  | _ => True
  end.

Definition buffer_inv (acts : list action) (s : buffer_state) : Prop :=
  ring_ok (b_buffer s) /\
  drainer_in_range (b_drainer s) (b_buffer s) /\
  (exists vs : list Z,
      b_output s = map ChSend vs ++ close_mark (b_closer s)) /\
  (past_wait (b_closer s) = true ->
   b_collector s = CReturned /\ b_drainer s = DReturned) /\
  exists k : nat,
    (k <= 5)%nat /\
    b_launch s = drop k acts /\
    started_c (b_collector s) = (2 <=? k)%nat /\
    started_d (b_drainer s) = (4 <=? k)%nat /\
    started_k (b_closer s) = (5 <=? k)%nat /\
    b_wg s = adds k - returned_c (b_collector s) - returned_d (b_drainer s).

(** ** Further notions about the buffering stage *)

Definition is_timer (e : buffer_event) : bool :=
  match e with BDrainerTimer => true | _ => false end.

(** A schedule in which the timer of the drainer never fires. *)
Definition timer_silent (sched : list buffer_event) : bool :=
  forallb (fun e => negb (is_timer e)) sched.

(** The drainer has not got past its outer select. *)
Definition drainer_idle (pc : drainer_pc) : bool :=
  match pc with
  | DNotStarted | DSelect | DReturned => true
  | _ => false
  end.

(** Every value the stage holds or has sent came in on its input
    [input0]: the slots below the mark [h] have been written by [Push],
    the cursor and the slice the drainer ranges over lie below the
    mark. *)
Definition holds_input_only (input0 : list Z) (s : buffer_state) : Prop :=
  (exists pre : list Z, input0 = pre ++ b_input s) /\
  match b_collector s with
  | CPush data => In data input0
  | _ => True
  end /\
  (exists h : nat,
      (h <= length (array (b_buffer s)))%nat /\
      pos (b_buffer s) < Z.of_nat h /\
      (forall (i : nat) (v : Z),
          (i < h)%nat -> array (b_buffer s) !! i = Some v -> In v input0) /\
      match b_drainer s with
      | DRange _ n => (n <= h)%nat
      | DSending _ n v => (n <= h)%nat /\ In v input0
      | _ => True
      end) /\
  Forall (fun v => In v input0) (sent (b_output s)).

(** The way to the end once [done] is closed: the stage function first
    finishes its statements, then the collector, the drainer and the
    closer each go to their return, none of them by a send. *)
Definition shutdown_event (s : buffer_state) : option buffer_event :=
  match b_launch s with
  | _ :: _ => Some BLaunch
  | [] =>
      match b_collector s with
      | CNotStarted => None
      | CSelect => Some BCollectorDone
      | CPush _ => Some BCollectorPush
      | CReturned =>
          match b_drainer s with
          | DNotStarted => None
          | DSelect | DSending _ _ _ => Some BDrainerDone
          | DGet => Some BDrainerGet
          | DRange _ _ => Some BDrainerLoad
          | DReturned =>
              match b_closer s with
              | KWait => Some BCloserWait
              | KClose => Some BCloserClose
              | KNotStarted | KReturned => None
              end
          end
      end
  end.

Fixpoint shutdown_schedule (fuel : nat) (s : buffer_state)
  : list buffer_event :=
  match fuel with
  | O => []
  | S fuel' =>
      match shutdown_event s with
      | None => []
      | Some e =>
          match buffer_step e s with
          | Next s' => e :: shutdown_schedule fuel' s'
          | _ => [e]
          end
      end
  end.

(** How many of these steps are left at most. *)
Definition shutdown_steps (s : buffer_state) : nat :=
  length (b_launch s) +
  match b_collector s with
  | CNotStarted | CSelect => 1 | CPush _ => 2 | CReturned => 0
  end +
  match b_drainer s with
  | DNotStarted | DSelect | DSending _ _ _ => 1
  | DGet => 3 | DRange _ _ => 2 | DReturned => 0
  end +
  match b_closer s with
  | KNotStarted | KWait => 2 | KClose => 1 | KReturned => 0
  end.

(** ** The consumer

    [consumer] runs in the goroutine of [main].  Its input channel is
    given by the values still to arrive on it, after which it is closed;
    [c_log] holds the values it has reported with [log.Printf], oldest
    first. *)
Record consumer_state : Type := mkConsumer {
  c_input    : list Z;
  c_done     : bool;          (* [done] has been closed *)
  c_returned : bool;
  c_log      : list Z
}.

Inductive consumer_event : Type :=
  | CoCancel       (* the source closes [done] *)
  | CoTakeInput    (* select: [case data, ok := <-c] *)
  | CoTakeDone.    (* select: [case <-done] *)

Definition consumer_step (e : consumer_event) (s : consumer_state)
  : outcome consumer_state :=
  match e with
  | CoCancel =>
      if c_done s then Stuck
      else Next (mkConsumer (c_input s) true (c_returned s) (c_log s))
  | CoTakeInput =>
      if c_returned s then Stuck
      else match c_input s with
           | [] => Next (mkConsumer [] (c_done s) true (c_log s))    (* !ok *)
           | data :: rest =>
               Next (mkConsumer rest (c_done s) false (c_log s ++ [data]))
           end
  | CoTakeDone =>
      if c_returned s then Stuck
      else if c_done s
           then Next (mkConsumer (c_input s) true true (c_log s))
           else Stuck
  end.

Definition consumer_init (input : list Z) : consumer_state :=
  mkConsumer input false false [].

(** The schedule without cancellation: every value is taken, then the
    closed channel is seen. *)
Definition consumer_schedule (input : list Z) : list consumer_event :=
  replicate (S (length input)) CoTakeInput.

(** What holds of the consumer started on [input0] at every moment. *)
Definition consumer_inv (input0 : list Z) (s : consumer_state) : Prop :=
  c_log s ++ c_input s = input0 /\
  (c_returned s = true -> c_done s = false -> c_input s = []).

(** ** The goroutine of [dataSource]

    The goroutine is a function of the texts the scanner hands out, one
    for each turn of the loop.  Two functions of the Go library are taken
    as given: [is_exit data] is [strings.EqualFold(data, "exit")], and
    [Atoi] is [strconv.Atoi] with [None] for an error.  What the
    goroutine does to the outside is the list of its effects, oldest
    first. *)
Inductive source_msg : Type :=
  | MsgPrompt      (* the invitation to enter numbers *)
  | MsgBye         (* the program has finished *)
  | MsgBadInput.   (* input error: integers only *)

Inductive source_effect : Type :=
  | SrcLog (m : source_msg)
  | SrcSend (i : Z)        (* [c <- i] *)
  | SrcCloseC              (* [close(c)] *)
  | SrcCloseDone.          (* the deferred [close(done)] *)

Section Source.
Variable is_exit : string -> bool.
Variable Atoi : string -> option Z.

(** The loop: the effects of the turns on the given texts, and whether
    the goroutine has left the loop by [return]. *)
Fixpoint source_loop (texts : list string) : list source_effect * bool :=
  match texts with
  | [] => ([], false)
  | data :: rest =>
      if is_exit data then ([SrcCloseC; SrcLog MsgBye], true)
      else
        match Atoi data with
        | None =>                                    (* continue *)
            (SrcLog MsgBadInput :: fst (source_loop rest),
             snd (source_loop rest))
        | Some i =>
            (SrcSend i :: fst (source_loop rest), snd (source_loop rest))
        end
  end.

Definition source_goroutine (texts : list string)
  : list source_effect * bool :=
  (SrcLog MsgPrompt :: fst (source_loop texts) ++
     (if snd (source_loop texts) then [SrcCloseDone] else []),
   snd (source_loop texts)).

(** The texts before the first one that says exit, and the integers
    among texts. *)
Fixpoint before_exit (texts : list string) : list string :=
  match texts with
  | [] => []
  | data :: rest => if is_exit data then [] else data :: before_exit rest
  end.

Fixpoint integers (texts : list string) : list Z :=
  match texts with
  | [] => []
  | data :: rest =>
      match Atoi data with
      | Some i => i :: integers rest
      | None => integers rest
      end
  end.
End Source.

(** The values sent on [c], and the effects on the two channels. *)
Fixpoint source_sent (t : list source_effect) : list Z :=
  match t with
  | [] => []
  | SrcSend i :: t' => i :: source_sent t'
  | _ :: t' => source_sent t'
  end.

Definition is_channel_effect (e : source_effect) : bool :=
  match e with SrcLog _ => false | _ => true end.

(** A schedule in which [done] is never closed. *)
Definition is_cancel (e : buffer_event) : bool :=
  match e with BCancel => true | _ => false end.

Definition cancel_free (sched : list buffer_event) : bool :=
  forallb (fun e => negb (is_cancel e)) sched.

(** From any point of a filter goroutine, the schedule that takes it
    through the rest of its input without the [done] case. *)
Definition filter_rest_schedule (keep : Z -> bool) (s : filter_state)
  : list filter_event :=
  match f_pc s with
  | FSelect => filter_schedule keep (f_input s)
  | FSending _ => FTakeSend :: filter_schedule keep (f_input s)
  | FReturned => []
  end.

(* ===================================================================== *)
(** * Part II: properties                                                 *)
(* ===================================================================== *)

Lemma int_wrap_small (z : Z) : int_min <= z <= int_max -> int_wrap z = z.
Proof.
  intros H. unfold int_wrap.
  rewrite Z.mod_small; unfold int_min, int_max in *; lia.
Qed.

Ltac run_go :=
  unfold call, accesses, Push, Get, Get_locked, defer, Lock, Unlock,
    load_pos, load_size, load_array, store_pos, store_elem, slice_upto,
    int_rem, touch, get_obj, put_obj, panic, bind, ret; simpl.

Lemma rem_next (r : RingIntBuffer) :
  ring_ok r -> 0 <= Z.rem (pos r + 1) (size r) < size r.
Proof.
  intros (_ & _ & Hs & Hp).
  pose proof (Z.rem_bound_pos (pos r + 1) (size r)). lia.
Qed.

Lemma call_Push (el : Z) (r : RingIntBuffer) :
  ring_ok r -> call (Push el) r = Ok (tt, pushed el r).
Proof.
  intros Hok. pose proof (rem_next r Hok) as Hq.
  destruct Hok as (Hmu & Hlen & Hs & Hp).
  run_go. rewrite Hmu. simpl.
  rewrite (int_wrap_small (pos r + 1)) by (unfold int_min, int_max in *; lia).
  destruct (Z.eqb_spec (size r) 0) as [E|_]; [lia|]. simpl.
  rewrite (int_wrap_small (Z.rem _ _)) by (unfold int_min, int_max in *; lia).
  destruct (Z.leb_spec 0 (Z.rem (pos r + 1) (size r))); [|lia].
  destruct (Z.ltb_spec (Z.rem (pos r + 1) (size r)) (Z.of_nat (length (array r))));
    [|lia].
  simpl. reflexivity.
Qed.

Lemma pushed_ok (el : Z) (r : RingIntBuffer) : ring_ok r -> ring_ok (pushed el r).
Proof.
  intros Hok. pose proof (rem_next r Hok) as Hq.
  destruct Hok as (Hmu & Hlen & Hs & Hp).
  unfold ring_ok, pushed; simpl. rewrite length_insert. lia.
Qed.

Lemma call_Get_empty (r : RingIntBuffer) :
  pos r < 0 -> call Get r = Ok (None, r).
Proof.
  intros Hp. run_go.
  destruct (Z.ltb_spec (pos r) 0); [|lia]. simpl. reflexivity.
Qed.

Lemma call_Get_nonempty (r : RingIntBuffer) :
  ring_ok r -> 0 <= pos r ->
  call Get r = Ok (Some (take (Z.to_nat (pos r + 1)) (array r)), drained r).
Proof.
  intros (Hmu & Hlen & Hs & Hp) H0. run_go.
  destruct (Z.ltb_spec (pos r) 0); [lia|]. simpl. rewrite Hmu. simpl.
  rewrite (int_wrap_small (pos r + 1)) by (unfold int_min, int_max in *; lia).
  destruct (Z.leb_spec 0 (pos r + 1)); [|lia].
  destruct (Z.leb_spec (pos r + 1) (Z.of_nat (length (array r)))); [|lia].
  simpl. reflexivity.
Qed.

Lemma drained_ok (r : RingIntBuffer) : ring_ok r -> ring_ok (drained r).
Proof. unfold ring_ok, drained; simpl. lia. Qed.

Lemma call_load_pos (r : RingIntBuffer) : call load_pos r = Ok (pos r, r).
Proof. reflexivity. Qed.

Lemma call_Get_locked (r : RingIntBuffer) :
  ring_ok r ->
  call Get_locked r
    = Ok (Some (take (Z.to_nat (pos r + 1)) (array r)), drained r).
Proof.
  intros (Hmu & Hlen & Hs & Hp). run_go. rewrite Hmu. simpl.
  rewrite (int_wrap_small (pos r + 1)) by (unfold int_min, int_max in *; lia).
  destruct (Z.leb_spec 0 (pos r + 1)); [|lia].
  destruct (Z.leb_spec (pos r + 1) (Z.of_nat (length (array r)))); [|lia].
  simpl. reflexivity.
Qed.

(** [Get] is its test of [pos] followed, when the test fails, by the
    locked part. *)
Lemma Get_split (r : RingIntBuffer) :
  ring_ok r ->
  call Get r =
    match call load_pos r with
    | Ok (p, r1) => if p <? 0 then Ok (None, r1) else call Get_locked r1
    | Fault f => Fault f
    end.
Proof.
  intros Hok. rewrite call_load_pos.
  destruct (Z.ltb_spec (pos r) 0).
  - apply call_Get_empty. assumption.
  - rewrite call_Get_nonempty, call_Get_locked by assumption. reflexivity.
Qed.

Lemma push_all_ok (els : list Z) :
  forall r : RingIntBuffer,
    ring_ok r ->
    exists r' : RingIntBuffer,
      push_all els r = Ok r' /\ ring_ok r' /\ (0 <= pos r -> 0 <= pos r').
Proof.
  induction els as [|el els IH]; intros r Hok; simpl.
  - exists r. auto.
  - rewrite call_Push by assumption.
    destruct (IH (pushed el r) (pushed_ok el r Hok)) as (r' & H1 & H2 & H3).
    exists r'. split; [assumption|]. split; [assumption|].
    intros _. apply H3. simpl. pose proof (rem_next r Hok). lia.
Qed.

(** With one drainer the early test does no harm: a [Get] that found
    [pos >= 0] and is overtaken by pushes before it locks returns what a
    [Get] begun after them returns. *)
Lemma Get_test_stable (els : list Z) (r r' : RingIntBuffer) :
  ring_ok r -> 0 <= pos r -> push_all els r = Ok r' ->
  call Get_locked r' = call Get r'.
Proof.
  intros Hok Hpos Hpush.
  destruct (push_all_ok els r Hok) as (r1 & H1 & Hok1 & Hpos1).
  rewrite H1 in Hpush. injection Hpush as <-.
  rewrite call_Get_locked, call_Get_nonempty; auto.
Qed.

Lemma new_ok (n : Z) :
  1 <= n <= int_max ->
  exists r, NewRingIntBuffer n = Ok r /\ ring_ok r /\
            r = mkRing (replicate (Z.to_nat n) 0) (-1) n false.
Proof.
  intros Hn. unfold NewRingIntBuffer.
  destruct (Z.ltb_spec n 0); [lia|].
  eexists; split; [reflexivity|]. split; [|reflexivity].
  unfold ring_ok; simpl. rewrite length_replicate. lia.
Qed.

(** Pushing [v :: l] into a buffer whose next slot is [n], when the new
    elements fit before the end of the array: they land in slots
    [n], [n+1], ... in order, and the cursor ends on the last of them. *)
Lemma push_all_chunk (l : list Z) :
  forall (v : Z) (r : RingIntBuffer) (n : nat),
    ring_ok r ->
    Z.rem (pos r + 1) (size r) = Z.of_nat n ->
    (n + S (length l) <= length (array r))%nat ->
    push_all (v :: l) r =
      Ok (mkRing (take n (array r) ++ (v :: l) ++
                  drop (n + S (length l)) (array r))
                 (Z.of_nat (n + length l)) (size r) false).
Proof.
  induction l as [|v' l IH]; intros v r n Hok Hn Hfit.
  - simpl. rewrite call_Push by assumption. unfold pushed; simpl.
    rewrite Hn, Nat2Z.id, Nat.add_0_r.
    rewrite insert_take_drop by lia.
    replace (n + 1)%nat with (S n) by lia. reflexivity.
  - change (push_all (v :: v' :: l) r)
      with (match call (Push v) r with
            | Ok (_, r') => push_all (v' :: l) r'
            | Fault f => Fault f
            end).
    rewrite call_Push by assumption.
    pose proof (pushed_ok v r Hok) as Hok'.
    destruct Hok as (Hmu & Hlen & Hs & Hp).
    simpl in Hfit.
    rewrite (IH v' (pushed v r) (S n)); try assumption.
    + unfold pushed; simpl. rewrite Hn, Nat2Z.id.
      rewrite drop_insert_lt by lia.
      replace (take (S n) (<[n:=v]> (array r)))
        with (take n (array r) ++ [v]).
      2: { rewrite insert_take_drop by lia.
           rewrite take_app_ge by (rewrite length_take; lia).
           rewrite length_take.
           replace (S n - n `min` length (array r))%nat with 1%nat by lia.
           reflexivity. }
      rewrite <- app_assoc. simpl.
      replace (S (n + S (length l))) with (n + S (S (length l)))%nat by lia.
      replace (S (n + length l)) with (n + S (length l))%nat by lia.
      reflexivity.
    + unfold pushed; simpl. rewrite Hn.
      rewrite Z.rem_small by lia. lia.
    + unfold pushed; simpl. rewrite length_insert. simpl. lia.
Qed.

Lemma push_all_app (l1 l2 : list Z) (r : RingIntBuffer) :
  push_all (l1 ++ l2) r =
    match push_all l1 r with
    | Ok r' => push_all l2 r'
    | Fault f => Fault f
    end.
Proof.
  revert r. induction l1 as [|v l1 IH]; intros r; simpl; [reflexivity|].
  destruct (call (Push v) r) as [[[] r']|f]; [apply IH|reflexivity].
Qed.

(** Exactly [size] pushes into a fresh buffer fill the array in order. *)
Lemma push_all_fill (n : Z) (els : list Z) (r0 : RingIntBuffer) :
  1 <= n <= int_max -> Z.of_nat (length els) = n ->
  NewRingIntBuffer n = Ok r0 ->
  push_all els r0 = Ok (mkRing els (n - 1) n false).
Proof.
  intros Hn Hlen Hnew.
  destruct (new_ok n Hn) as (r & Hr & Hok & ->).
  rewrite Hr in Hnew. injection Hnew as <-.
  destruct els as [|v l]; [simpl in Hlen; lia|].
  rewrite (push_all_chunk l v _ 0%nat Hok); simpl.
  - rewrite drop_ge by (rewrite length_replicate; simpl in Hlen; lia).
    rewrite app_nil_r. f_equal. f_equal. simpl in Hlen. lia.
  - apply Z.rem_0_l. lia.
  - rewrite length_replicate. simpl in Hlen. lia.
Qed.

(** [k] further pushes, [0 < k <= size], into a full buffer overwrite
    slots [0 .. k-1] and leave the cursor on slot [k-1]. *)
Lemma push_all_wrap (n : Z) (old new : list Z) :
  1 <= n <= int_max -> Z.of_nat (length old) = n ->
  (0 < length new <= length old)%nat ->
  push_all new (mkRing old (n - 1) n false) =
    Ok (mkRing (new ++ drop (length new) old)
               (Z.of_nat (length new) - 1) n false).
Proof.
  intros Hn Hlen Hk.
  destruct new as [|v l]; [simpl in Hk; lia|].
  assert (Hok : ring_ok (mkRing old (n - 1) n false))
    by (unfold ring_ok; simpl; lia).
  rewrite (push_all_chunk l v _ 0%nat Hok); simpl.
  - f_equal. f_equal. lia.
  - replace (n - 1 + 1) with n by lia. apply Z.rem_same. lia.
  - simpl in Hk. lia.
Qed.

(** Part one of the capacity property: [size] pushes, then [Get]. *)
Lemma fill_and_drain_exact (n : Z) (els : list Z) :
  1 <= n <= int_max -> Z.of_nat (length els) = n ->
  fill_and_drain n els = Ok (Some els, mkRing els (-1) n false).
Proof.
  intros Hn Hlen. unfold fill_and_drain.
  destruct (new_ok n Hn) as (r0 & Hr0 & _ & _). rewrite Hr0.
  rewrite (push_all_fill n els r0 Hn Hlen Hr0).
  rewrite call_Get_nonempty; simpl; [|unfold ring_ok; simpl; lia|lia].
  unfold drained; simpl.
  replace (Z.to_nat (n - 1 + 1)) with (length els) by lia.
  rewrite firstn_all. reflexivity.
Qed.

(** What the code does on [size + k] pushes, [0 < k < size]: the array
    holds the last [k] elements followed by the [size - k] elements that
    were not overwritten, and [Get] hands out the first [k] slots only. *)
Lemma fill_and_drain_wrapped (n : Z) (old new : list Z) :
  1 <= n <= int_max -> Z.of_nat (length old) = n ->
  (0 < length new < length old)%nat ->
  fill_and_drain n (old ++ new) =
    Ok (Some new, mkRing (new ++ drop (length new) old) (-1) n false).
Proof.
  intros Hn Hlen Hk. unfold fill_and_drain.
  destruct (new_ok n Hn) as (r0 & Hr0 & _ & _). rewrite Hr0.
  rewrite push_all_app, (push_all_fill n old r0 Hn Hlen Hr0).
  rewrite (push_all_wrap n old new Hn Hlen) by lia.
  rewrite call_Get_nonempty; simpl.
  - unfold drained; simpl.
    replace (Z.to_nat (Z.of_nat (length new) - 1 + 1)) with (length new) by lia.
    rewrite take_app_length. reflexivity.
  - unfold ring_ok; simpl. rewrite length_app, length_drop. lia.
  - lia.
Qed.

Lemma call_Get_inv (r r1 : RingIntBuffer) (o : option (list Z)) :
  call Get r = Ok (o, r1) ->
  (pos r < 0 /\ o = None /\ r1 = r) \/
  (0 <= pos r /\ mu r = false /\ r1 = drained r /\
   o = Some (take (Z.to_nat (int_wrap (pos r + 1))) (array r))).
Proof.
  run_go. destruct (Z.ltb_spec (pos r) 0) as [Hneg|Hpos]; simpl.
  - intros [= <- <-]. left. destruct r; auto.
  - destruct (mu r) eqn:Hmu; simpl; [discriminate|].
    destruct ((0 <=? int_wrap (pos r + 1)) &&
              (int_wrap (pos r + 1) <=? Z.of_nat (length (array r))));
      simpl; [|discriminate].
    intros [= <- <-]. right. auto.
Qed.

(** ** C3 *)

(** C3.  In every state of a buffer with [pos >= 0], [Get] returns the
    entries at indices 0 through [pos], in array order; afterwards the
    cursor is -1 and the array is the one it was. *)
Theorem Get_returns_prefix_and_resets (r : RingIntBuffer)
    (Hok : ring_ok r) (Hpos : 0 <= pos r) :
  exists (out : list Z) (r' : RingIntBuffer),
    call Get r = Ok (Some out, r') /\
    out = take (Z.to_nat (pos r + 1)) (array r) /\
    Z.of_nat (length out) = pos r + 1 /\
    (forall i : nat, (i <= Z.to_nat (pos r))%nat -> out !! i = array r !! i) /\
    pos r' = -1 /\
    array r' = array r /\
    size r' = size r.
Proof.
  exists (take (Z.to_nat (pos r + 1)) (array r)), (drained r).
  split; [apply call_Get_nonempty; assumption|].
  destruct Hok as (Hmu & Hlen & Hs & Hp).
  repeat split.
  - rewrite length_take. lia.
  - intros i Hi. apply lookup_take_lt. lia.
Qed.

Lemma Get_returns_prefix_and_resets_witness :
  exists (out : list Z) (r' : RingIntBuffer),
    call Get (mkRing [3; 6; 9; 12; 0] 2 5 false) = Ok (Some out, r') /\
    out = [3; 6; 9] /\
    Z.of_nat (length out) = 3 /\
    (forall i : nat, (i <= 2)%nat ->
       out !! i = [3; 6; 9; 12; 0] !! i) /\
    pos r' = -1 /\
    array r' = [3; 6; 9; 12; 0] /\
    size r' = 5.
Proof.
  apply (Get_returns_prefix_and_resets (mkRing [3; 6; 9; 12; 0] 2 5 false)).
  - unfold ring_ok, int_max; simpl. lia.
  - simpl. lia.
Defined.

(** ** C7 *)

(** C7.  [Get] on a buffer with nothing to hand out, be it fresh or
    drained by the call before, returns the nil slice and no fault, and
    leaves the buffer as it was; whenever a [Get] has returned, the next
    [Get] with no [Push] in between returns nil. *)
Theorem Get_on_empty_returns_nil (r : RingIntBuffer) :
  (pos r < 0 -> call Get r = Ok (None, r)) /\
  (forall n : Z, NewRingIntBuffer n = Ok r -> call Get r = Ok (None, r)) /\
  (forall (o : option (list Z)) (r1 : RingIntBuffer),
      call Get r = Ok (o, r1) -> call Get r1 = Ok (None, r1)) /\
  (ring_ok r ->
     exists (o : option (list Z)) (r1 : RingIntBuffer),
       call Get r = Ok (o, r1) /\ call Get r1 = Ok (None, r1)).
Proof.
  assert (Hnext : forall o r1, call Get r = Ok (o, r1) ->
                               call Get r1 = Ok (None, r1)).
  { intros o r1 H. apply call_Get_empty.
    destruct (call_Get_inv _ _ _ H) as [(Hp & _ & ->)|(_ & _ & -> & _)];
      [assumption|simpl; lia]. }
  split; [apply call_Get_empty|].
  split.
  { intros n Hn. apply call_Get_empty. unfold NewRingIntBuffer in Hn.
    destruct (n <? 0); [discriminate|]. injection Hn as <-. simpl. lia. }
  split; [exact Hnext|].
  intros Hok. destruct (Z.lt_ge_cases (pos r) 0) as [Hneg|Hpos].
  - exists None, r. split; apply call_Get_empty; assumption.
  - eexists _, _. split; [apply call_Get_nonempty; assumption|].
    apply call_Get_empty. simpl. lia.
Qed.

Lemma Get_on_empty_returns_nil_witness :
  call Get (mkRing [0; 0; 0] (-1) 3 false)
    = Ok (None, mkRing [0; 0; 0] (-1) 3 false) /\
  call Get (mkRing [4; 5; 0] 1 3 false)
    = Ok (Some [4; 5], mkRing [4; 5; 0] (-1) 3 false) /\
  call Get (mkRing [4; 5; 0] (-1) 3 false)
    = Ok (None, mkRing [4; 5; 0] (-1) 3 false).
Proof.
  split; [|split].
  - apply (proj1 (Get_on_empty_returns_nil (mkRing [0; 0; 0] (-1) 3 false))).
    simpl. lia.
  - reflexivity.
  - apply (proj1 (proj2 (proj2
             (Get_on_empty_returns_nil (mkRing [4; 5; 0] 1 3 false))))
             (Some [4; 5])).
    reflexivity.
Defined.

(** ** C10 *)

Lemma run_ops_ok (ops : list op) :
  forall r : RingIntBuffer,
    ring_ok r ->
    exists r' : RingIntBuffer,
      run_ops ops r = Ok r' /\ ring_ok r' /\ size r' = size r.
Proof.
  induction ops as [|[el|] ops IH]; intros r Hok; simpl.
  - exists r. auto.
  - rewrite call_Push by assumption.
    destruct (IH (pushed el r) (pushed_ok el r Hok)) as (r' & H1 & H2 & H3).
    exists r'. auto.
  - destruct (Z.lt_ge_cases (pos r) 0) as [Hneg|Hpos].
    + rewrite call_Get_empty by assumption. apply IH. assumption.
    + rewrite call_Get_nonempty by assumption.
      destruct (IH (drained r) (drained_ok r Hok)) as (r' & H1 & H2 & H3).
      exists r'. auto.
Qed.

(** C10.  A buffer made by [NewRingIntBuffer n] with [n >= 1] satisfies
    [-1 <= pos < size], and every [Push] and every [Get] returns without
    a fault (no index out of range, no division by zero) in a state that
    satisfies it again.  The constructor accepts [n = 0] all the same,
    and the first [Push] on that buffer divides by zero. *)
Theorem ring_invariant (n : Z) (ops : list op) (Hn : 1 <= n <= int_max) :
  (exists r0 r : RingIntBuffer,
      NewRingIntBuffer n = Ok r0 /\
      -1 <= pos r0 < size r0 /\
      run_ops ops r0 = Ok r /\
      -1 <= pos r < size r /\
      size r = n /\ Z.of_nat (length (array r)) = n) /\
  (forall (r : RingIntBuffer) (el : Z),
      ring_ok r ->
      exists r', call (Push el) r = Ok (tt, r') /\ ring_ok r') /\
  (forall r : RingIntBuffer,
      ring_ok r ->
      exists o r', call Get r = Ok (o, r') /\ ring_ok r') /\
  (exists r0 : RingIntBuffer,
      NewRingIntBuffer 0 = Ok r0 /\
      forall el : Z, call (Push el) r0 = Fault DivideByZero).
Proof.
  split; [|split; [|split]].
  - destruct (new_ok n Hn) as (r0 & Hr0 & Hok & Hshape).
    destruct (run_ops_ok ops r0 Hok) as (r & Hrun & Hok' & Hsz).
    exists r0, r. split; [assumption|].
    destruct Hok as (_ & _ & _ & Hp0). split; [assumption|].
    split; [assumption|].
    destruct Hok' as (_ & Hlen & _ & Hp). split; [assumption|].
    subst r0. simpl in Hsz. split; lia.
  - intros r el Hok. exists (pushed el r).
    split; [apply call_Push|apply pushed_ok]; assumption.
  - intros r Hok. destruct (Z.lt_ge_cases (pos r) 0) as [Hneg|Hpos].
    + exists None, r. split; [apply call_Get_empty|]; assumption.
    + eexists _, (drained r).
      split; [apply call_Get_nonempty|apply drained_ok]; assumption.
  - exists (mkRing [] (-1) 0 false). split; [reflexivity|].
    intros el. reflexivity.
Qed.

Lemma ring_invariant_witness :
  exists r0 r : RingIntBuffer,
    NewRingIntBuffer 3 = Ok r0 /\
    -1 <= pos r0 < size r0 /\
    run_ops [OpPush 1; OpPush 2; OpGet; OpPush 3; OpPush 4; OpPush 5;
             OpPush 6; OpGet; OpGet] r0 = Ok r /\
    -1 <= pos r < size r /\
    size r = 3 /\ Z.of_nat (length (array r)) = 3.
Proof.
  apply (proj1 (ring_invariant 3
    [OpPush 1; OpPush 2; OpGet; OpPush 3; OpPush 4; OpPush 5;
     OpPush 6; OpGet; OpGet] ltac:(unfold int_max; lia))).
Defined.

(** ** C1 *)

(** Capacity 3, four pushes: the array holds [4; 2; 3], the first element
    overwritten by the last, and [Get] returns [[4]] alone.  The drain
    does not return [size] elements. *)
Lemma drain_after_wrap_is_not_size_items :
  fill_and_drain 3 [1; 2; 3; 4]
    = Ok (Some [4], mkRing [4; 2; 3] (-1) 3 false) /\
  ~ (exists (out : list Z) (r : RingIntBuffer),
        fill_and_drain 3 [1; 2; 3; 4] = Ok (Some out, r) /\
        length out = 3%nat).
Proof.
  split; [reflexivity|].
  intros (out & r & H & Hlen). vm_compute in H.
  injection H as <- <-. discriminate.
Qed.

(** C1.  For a buffer of capacity [size], pushing exactly [size]
    elements and draining returns those elements in order.  Pushing [k]
    more before the drain, [0 < k < size], leaves the array with the
    [size] elements the drain is said to return, the first [k] pushed
    overwritten by the last [k]; but [Get] returns the last [k] alone.
    The [size - k] elements behind them are stored, were never
    overwritten, and are not returned: the drain is shorter than [size],
    and the [Get] after it returns nil. *)
Theorem Get_after_wrap_drops_stored_elements (n : Z) (old new : list Z)
    (Hn : 1 <= n <= int_max) (Hold : Z.of_nat (length old) = n)
    (Hk : (0 < length new < length old)%nat) :
  let left := mkRing (claimed_drain old new) (-1) n false in
  fill_and_drain n old = Ok (Some old, mkRing old (-1) n false) /\
  fill_and_drain n (old ++ new) = Ok (Some new, left) /\
  Z.of_nat (length (claimed_drain old new)) = n /\
  (length new < length (claimed_drain old new))%nat /\
  Some new <> Some (claimed_drain old new) /\
  drop (length new) (array left) = drop (length new) old /\
  drop (length new) old <> [] /\
  call Get left = Ok (None, left).
Proof.
  intros left.
  assert (Hlen : length (claimed_drain old new) = length old).
  { unfold claimed_drain. rewrite length_app, length_drop. lia. }
  split; [apply fill_and_drain_exact; assumption|].
  split; [apply fill_and_drain_wrapped; assumption|].
  split; [lia|]. split; [lia|]. split.
  - intros [= E]. apply (f_equal length) in E. lia.
  - split; [|split].
    + unfold left, claimed_drain. cbn [array].
      rewrite drop_app_length. reflexivity.
    + intros E. apply (f_equal length) in E.
      rewrite length_drop in E. simpl in E. lia.
    + apply call_Get_empty. unfold left. cbn [pos]. lia.
Qed.

Lemma Get_after_wrap_drops_stored_elements_witness :
  fill_and_drain 3 [1; 2; 3]
    = Ok (Some [1; 2; 3], mkRing [1; 2; 3] (-1) 3 false) /\
  fill_and_drain 3 ([1; 2; 3] ++ [4]) = Ok (Some [4], mkRing (claimed_drain [1; 2; 3] [4]) (-1) 3 false) /\
  Z.of_nat (length (claimed_drain [1; 2; 3] [4])) = 3 /\
  (length [4%Z] < length (claimed_drain [1%Z; 2%Z; 3%Z] [4%Z]))%nat /\
  Some [4] <> Some (claimed_drain [1; 2; 3] [4]) /\
  drop (length [4])
       (array (mkRing (claimed_drain [1; 2; 3] [4]) (-1) 3 false))
    = drop (length [4]) [1; 2; 3] /\
  drop (length [4]) [1; 2; 3] <> [] /\
  call Get (mkRing (claimed_drain [1; 2; 3] [4]) (-1) 3 false)
    = Ok (None, mkRing (claimed_drain [1; 2; 3] [4]) (-1) 3 false).
Proof.
  apply (Get_after_wrap_drops_stored_elements 3 [1; 2; 3] [4]).
  - unfold int_max. lia.
  - reflexivity.
  - simpl. lia.
Defined.

(** ** C2 *)

(** [Push] touches the struct only with the mutex held. *)
Lemma Push_accesses_locked (el : Z) (r : RingIntBuffer) :
  ring_ok r ->
  exists l : list access,
    accesses (Push el) r = Ok l /\ all_locked l = true.
Proof.
  intros Hok. pose proof (rem_next r Hok) as Hq.
  destruct Hok as (Hmu & Hlen & Hs & Hp).
  run_go. rewrite Hmu. simpl.
  rewrite (int_wrap_small (pos r + 1)) by (unfold int_min, int_max in *; lia).
  destruct (Z.eqb_spec (size r) 0) as [E|_]; [lia|]. simpl.
  rewrite (int_wrap_small (Z.rem _ _)) by (unfold int_min, int_max in *; lia).
  destruct (Z.leb_spec 0 (Z.rem (pos r + 1) (size r))); [|lia].
  destruct (Z.ltb_spec (Z.rem (pos r + 1) (size r)) (Z.of_nat (length (array r))));
    [|lia].
  simpl. eexists. split; reflexivity.
Qed.

(** [Get] begins with a load of [pos] made without the mutex, whatever
    the state. *)
Lemma Get_first_access_unlocked (r : RingIntBuffer) :
  ring_ok r ->
  exists rest : list access,
    accesses Get r = Ok (mkAccess Fpos Load false :: rest) /\
    all_locked (mkAccess Fpos Load false :: rest) = false.
Proof.
  intros (Hmu & Hlen & Hs & Hp). run_go.
  destruct (Z.ltb_spec (pos r) 0); simpl; rewrite Hmu; simpl.
  - eexists. split; reflexivity.
  - rewrite (int_wrap_small (pos r + 1)) by (unfold int_min, int_max in *; lia).
    destruct (Z.leb_spec 0 (pos r + 1)); [|lia].
    destruct (Z.leb_spec (pos r + 1) (Z.of_nat (length (array r)))); [|lia].
    simpl. eexists. split; reflexivity.
Qed.

(** Two drainers.  The first tests [pos] of a buffer holding one element
    and is then overtaken by a complete [Get] of the second; when it goes
    on, it returns a slice that is not nil and has no element.  One call
    after the other never gives that: the second [Get] returns nil. *)
Lemma Get_test_then_act_not_serial :
  let r := mkRing [7; 0; 0] 0 3 false in
  let r1 := mkRing [7; 0; 0] (-1) 3 false in
  call load_pos r = Ok (0, r) /\
  call Get r = Ok (Some [7], r1) /\
  call Get_locked r1 = Ok (Some [], r1) /\
  call Get r1 = Ok (None, r1).
Proof. cbv zeta. split; [|split; [|split]]; vm_compute; reflexivity. Qed.

(** C2.  On the buffer of the buffering stage, fresh or after a push,
    the first access of [Get] is the load of [pos] for the test
    [pos < 0], made without the mutex; on the fresh buffer [Get] returns
    without ever taking it, and it returns just the same while another
    goroutine holds the mutex.  [Push] makes every access with the mutex
    held. *)
Theorem Get_tests_pos_without_lock :
  let r0 := mkRing (replicate 10 0) (-1) bufferSize false in
  let held_by_other := mkRing (replicate 10 0) (-1) bufferSize true in
  NewRingIntBuffer bufferSize = Ok r0 /\
  accesses Get r0 = Ok [mkAccess Fpos Load false] /\
  accesses Get (pushed 5 r0)
    = Ok [mkAccess Fpos Load false; mkAccess Farray Load true;
          mkAccess Fpos Load true; mkAccess Fpos Store true] /\
  call Get held_by_other = Ok (None, held_by_other) /\
  accesses (Push 5) r0
    = Ok [mkAccess Fpos Load true; mkAccess Fsize Load true;
          mkAccess Fpos Store true; mkAccess Fpos Load true;
          mkAccess Farray Load true; mkAccess Farray Store true].
Proof.
  cbv zeta. split; [|split; [|split; [|split]]]; vm_compute; reflexivity.
Qed.

(** ** Schedules *)

Section RunFacts.
Context {S E : Type}.
Variable step : E -> S -> outcome S.

Lemma run_app (l1 l2 : list E) (s : S) :
  run step (l1 ++ l2) s =
    match run step l1 s with
    | Next s' => run step l2 s'
    | Stuck => Stuck
    | Crash f => Crash f
    end.
Proof.
  revert s. induction l1 as [|e l1 IH]; intros s; simpl; [reflexivity|].
  destruct (step e s); auto.
Qed.

Variable P : S -> Prop.
Hypothesis step_keeps : forall e s s', P s -> step e s = Next s' -> P s'.

Lemma run_keeps (sched : list E) :
  forall s s', P s -> run step sched s = Next s' -> P s'.
Proof.
  induction sched as [|e sched IH]; intros s s' HP; simpl.
  - intros [= <-]. assumption.
  - destruct (step e s) as [s1| |f] eqn:Hstep; try discriminate.
    apply IH. eapply step_keeps; eassumption.
Qed.

Hypothesis step_safe : forall e s f, P s -> step e s <> Crash f.

Lemma run_safe (sched : list E) :
  forall s f, P s -> run step sched s <> Crash f.
Proof.
  induction sched as [|e sched IH]; intros s f HP; simpl; [discriminate|].
  destruct (step e s) as [s1| |f1] eqn:Hstep; try discriminate.
  - apply IH. eapply step_keeps; eassumption.
  - exfalso. eapply step_safe; eassumption.
Qed.
End RunFacts.

(** ** Channel histories *)

Lemma sent_sends (vs : list Z) : sent (map ChSend vs) = vs.
Proof. induction vs as [|v vs IH]; simpl; [|rewrite IH]; reflexivity. Qed.

Lemma sent_app (h1 h2 : list chan_op) : sent (h1 ++ h2) = sent h1 ++ sent h2.
Proof.
  induction h1 as [|[v|] h1 IH]; simpl; [reflexivity| |assumption].
  rewrite IH. reflexivity.
Qed.

Lemma closed_sends (vs : list Z) : closed (map ChSend vs) = false.
Proof. induction vs as [|v vs IH]; simpl; [reflexivity|assumption]. Qed.

Lemma closed_app (h1 h2 : list chan_op) :
  closed (h1 ++ h2) = closed h1 || closed h2.
Proof. unfold closed. apply existsb_app. Qed.

(** ** The filter goroutine *)

Section FilterFacts.
Variable keep : Z -> bool.
Variable input0 : list Z.

Lemma filter_inv_init : filter_inv keep input0 (filter_init input0).
Proof. exists []. simpl. auto. Qed.

Lemma filter_step_keeps (e : filter_event) (s s' : filter_state) :
  filter_inv keep input0 s -> filter_step keep e s = Next s' ->
  filter_inv keep input0 s'.
Proof.
  intros [vs Hinv]. unfold filter_step, filter_return, chan_close, chan_send.
  destruct e, (f_pc s) eqn:Hpc; try discriminate.
  - (* FCancel, FSelect *)
    destruct (f_done s); [discriminate|]. intros [= <-].
    exists vs. simpl. assumption.
  - (* FCancel, FSending *)
    destruct (f_done s); [discriminate|]. intros [= <-].
    exists vs. simpl. assumption.
  - (* FCancel, FReturned *)
    destruct (f_done s); [discriminate|]. intros [= <-].
    exists vs. simpl.
    destruct Hinv as (Ho & Hpre & _).
    split; [exact Ho|]. split; [exact Hpre|]. discriminate.
  - (* FTakeInput, FSelect *)
    destruct Hinv as (Ho & Hvs).
    destruct (f_input s) as [|data rest] eqn:Hin.
    + rewrite Ho, closed_sends. intros [= <-]. exists vs. simpl.
      simpl in Hvs. rewrite app_nil_r in Hvs. rewrite <- Hvs.
      split; [reflexivity|]. split; [exists []; symmetry; apply app_nil_r|].
      reflexivity.
    + simpl in Hvs. destruct (keep data) eqn:Hk; intros [= <-];
        exists vs; simpl.
      * split; [exact Ho|]. split; [exact Hk|exact Hvs].
      * split; [exact Ho|exact Hvs].
  - (* FTakeSend, FSending *)
    destruct Hinv as (Ho & Hk & Hvs).
    rewrite Ho, closed_sends. intros [= <-].
    exists (vs ++ [data]). simpl. rewrite map_app. split; [reflexivity|].
    rewrite <- app_assoc. assumption.
  - (* FTakeDone, FSelect *)
    destruct Hinv as (Ho & Hvs).
    destruct (f_done s) eqn:Hd; [|discriminate].
    rewrite Ho, closed_sends. intros [= <-]. exists vs. simpl.
    split; [reflexivity|]. split; [|discriminate].
    eexists. symmetry. exact Hvs.
  - (* FTakeDone, FSending *)
    destruct Hinv as (Ho & Hk & Hvs).
    destruct (f_done s) eqn:Hd; [|discriminate].
    rewrite Ho, closed_sends. intros [= <-]. exists vs. simpl.
    split; [reflexivity|]. split; [|discriminate].
    eexists. symmetry. exact Hvs.
Qed.

Lemma filter_step_safe (e : filter_event) (s : filter_state) (f : fault) :
  filter_inv keep input0 s -> filter_step keep e s <> Crash f.
Proof.
  intros [vs Hinv]. unfold filter_step, filter_return, chan_close, chan_send.
  destruct e, (f_pc s) eqn:Hpc; try discriminate;
    try (destruct (f_done s); discriminate).
  - destruct Hinv as (Ho & _).
    destruct (f_input s) as [|data rest]; [|destruct (keep data); discriminate].
    rewrite Ho, closed_sends. discriminate.
  - destruct Hinv as (Ho & _). rewrite Ho, closed_sends. discriminate.
  - destruct Hinv as (Ho & _). rewrite Ho, closed_sends.
    destruct (f_done s); discriminate.
  - destruct Hinv as (Ho & _). rewrite Ho, closed_sends.
    destruct (f_done s); discriminate.
Qed.
End FilterFacts.

Section FilterRuns.
Variable keep : Z -> bool.

Lemma filter_run_inv (input : list Z) (sched : list filter_event)
    (s : filter_state) :
  run (filter_step keep) sched (filter_init input) = Next s ->
  filter_inv keep input s.
Proof.
  apply (run_keeps (filter_step keep) (filter_inv keep input)).
  - intros e s1 s2. apply filter_step_keeps.
  - apply filter_inv_init.
Qed.

Lemma filter_run_safe (input : list Z) (sched : list filter_event)
    (f : fault) :
  run (filter_step keep) sched (filter_init input) <> Crash f.
Proof.
  apply (run_safe (filter_step keep) (filter_inv keep input)).
  - intros e s1 s2. apply filter_step_keeps.
  - intros e s1 f1. apply filter_step_safe.
  - apply filter_inv_init.
Qed.

(** Without cancellation the goroutine gets through its whole input. *)
Lemma filter_schedule_run (input : list Z) :
  forall vs : list Z,
    run (filter_step keep) (filter_schedule keep input)
        (mkFilter input false FSelect (map ChSend vs))
    = Next (mkFilter [] false FReturned
              (map ChSend (vs ++ List.filter keep input) ++ [ChClose])).
Proof.
  induction input as [|data rest IH]; intros vs.
  - simpl. unfold filter_return, chan_close. simpl.
    rewrite closed_sends, app_nil_r. reflexivity.
  - simpl. destruct (keep data) eqn:Hk; simpl; rewrite Hk.
    + unfold chan_send. simpl. rewrite closed_sends.
      replace (map ChSend vs ++ [ChSend data])
        with (map ChSend (vs ++ [data])) by (rewrite map_app; reflexivity).
      rewrite IH, <- app_assoc. reflexivity.
    + apply IH.
Qed.

(** The values a filter stage sends.  Some schedule runs the goroutine
    to its return with [done] open; in every schedule the values sent
    so far are an initial part of the kept values of the input, and
    all of them once the goroutine has returned with [done] open. *)
Lemma filter_stage_sends (input : list Z) :
  (exists s : filter_state,
      run (filter_step keep) (filter_schedule keep input) (filter_init input)
        = Next s /\
      f_pc s = FReturned /\ f_done s = false /\
      f_output s = map ChSend (List.filter keep input) ++ [ChClose]) /\
  (forall (sched : list filter_event) (s : filter_state),
      run (filter_step keep) sched (filter_init input) = Next s ->
      sent (f_output s) `prefix_of` List.filter keep input /\
      (f_pc s = FReturned -> f_done s = false ->
       f_output s = map ChSend (List.filter keep input) ++ [ChClose])).
Proof.
  split.
  - eexists. split; [apply (filter_schedule_run input [])|].
    simpl. auto.
  - intros sched s Hrun.
    destruct (filter_run_inv input sched s Hrun) as [vs Hinv].
    destruct (f_pc s) eqn:Hpc.
    + destruct Hinv as (-> & Hvs). rewrite sent_sends.
      split; [eexists; symmetry; exact Hvs|discriminate].
    + destruct Hinv as (-> & _ & Hvs). rewrite sent_sends.
      split; [eexists; symmetry; exact Hvs|discriminate].
    + destruct Hinv as (-> & Hpre & Hall).
      rewrite sent_app, sent_sends. simpl. rewrite app_nil_r.
      split; [exact Hpre|]. intros _ Hd. rewrite (Hall Hd). reflexivity.
Qed.
End FilterRuns.

Lemma filter_sublist (keep : Z -> bool) (l : list Z) :
  List.filter keep l `sublist_of` l.
Proof.
  induction l as [|v l IH]; simpl; [constructor|].
  destruct (keep v); constructor; assumption.
Qed.

(** ** C6 *)

(** C6.  The negative filter stage, run to its return with [done] open
    on any input: a value is among those sent exactly when it was fed
    and is [>= 0]; the values sent are the values [>= 0] of the input,
    each as often as fed and in the order fed.  Such a run exists for
    every input. *)
Theorem negative_filter_keeps_nonnegative (input : list Z) :
  (exists s : filter_state,
      run (filter_step negative_keep) (filter_schedule negative_keep input)
          (filter_init input) = Next s /\
      f_pc s = FReturned /\ f_done s = false) /\
  (forall (sched : list filter_event) (s : filter_state),
      run (filter_step negative_keep) sched (filter_init input) = Next s ->
      f_pc s = FReturned -> f_done s = false ->
      (forall v : Z, In v (sent (f_output s)) <-> In v input /\ 0 <= v) /\
      sent (f_output s) = List.filter (fun v => 0 <=? v) input /\
      sent (f_output s) `sublist_of` input).
Proof.
  destruct (filter_stage_sends negative_keep input) as [(s & H1 & H2 & H3 & _) Hall].
  split; [exists s; auto|].
  intros sched s' Hrun Hret Hlive.
  destruct (Hall sched s' Hrun) as [_ Hout]. rewrite (Hout Hret Hlive).
  rewrite sent_app, sent_sends. simpl. rewrite app_nil_r.
  split; [|split].
  - intros v. rewrite filter_In. unfold negative_keep.
    rewrite Z.leb_le. reflexivity.
  - reflexivity.
  - apply filter_sublist.
Qed.

Lemma negative_filter_keeps_nonnegative_witness :
  let s := mkFilter [] false FReturned
             [ChSend 3; ChSend 0; ChSend 6; ChClose] in
  (forall v : Z, In v (sent (f_output s)) <-> In v [-5; 3; 0; -3; 6] /\ 0 <= v) /\
  sent (f_output s) = List.filter (fun v => 0 <=? v) [-5; 3; 0; -3; 6] /\
  sent (f_output s) `sublist_of` [-5; 3; 0; -3; 6].
Proof.
  apply (proj2 (negative_filter_keeps_nonnegative [-5; 3; 0; -3; 6])
           (filter_schedule negative_keep [-5; 3; 0; -3; 6])).
  - reflexivity.
  - reflexivity.
  - reflexivity.
Defined.

(** ** C5 *)

Lemma special_keep_spec (v : Z) :
  special_keep v = true <-> v <> 0 /\ Z.rem v 3 = 0.
Proof.
  unfold special_keep. rewrite andb_true_iff, negb_true_iff.
  rewrite Z.eqb_neq, Z.eqb_eq. reflexivity.
Qed.

(** C5.  The multiple-of-three filter stage, run to its return with
    [done] open on any input: a value is among those sent exactly when
    it was fed, is not 0 and has remainder 0 by 3.  Of [0; -3; 3; 9; 5]
    it sends -3, 3 and 9 and drops 0 and 5.  Such a run exists for every
    input. *)
Theorem special_filter_keeps_nonzero_multiples (input : list Z) :
  (exists s : filter_state,
      run (filter_step special_keep) (filter_schedule special_keep input)
          (filter_init input) = Next s /\
      f_pc s = FReturned /\ f_done s = false) /\
  (forall (sched : list filter_event) (s : filter_state),
      run (filter_step special_keep) sched (filter_init input) = Next s ->
      f_pc s = FReturned -> f_done s = false ->
      (forall v : Z,
          In v (sent (f_output s)) <-> In v input /\ v <> 0 /\ Z.rem v 3 = 0) /\
      sent (f_output s)
        = List.filter (fun v => negb (v =? 0) && (Z.rem v 3 =? 0)) input) /\
  (exists s : filter_state,
      run (filter_step special_keep)
          (filter_schedule special_keep [0; -3; 3; 9; 5])
          (filter_init [0; -3; 3; 9; 5]) = Next s /\
      sent (f_output s) = [-3; 3; 9]).
Proof.
  destruct (filter_stage_sends special_keep input) as [(s & H1 & H2 & H3 & _) Hall].
  split; [exists s; auto|]. split.
  - intros sched s' Hrun Hret Hlive.
    destruct (Hall sched s' Hrun) as [_ Hout]. rewrite (Hout Hret Hlive).
    rewrite sent_app, sent_sends. simpl. rewrite app_nil_r.
    split; [|reflexivity].
    intros v. rewrite filter_In, special_keep_spec. reflexivity.
  - eexists. split; reflexivity.
Qed.

Lemma special_filter_keeps_nonzero_multiples_witness :
  let s := mkFilter [] false FReturned
             [ChSend (-3); ChSend 3; ChSend 9; ChSend (-6); ChClose] in
  (forall v : Z,
      In v (sent (f_output s)) <->
      In v [0; -3; 3; 9; 5; -6; 7] /\ v <> 0 /\ Z.rem v 3 = 0) /\
  sent (f_output s)
    = List.filter (fun v => negb (v =? 0) && (Z.rem v 3 =? 0))
        [0; -3; 3; 9; 5; -6; 7].
Proof.
  apply (proj1 (proj2 (special_filter_keeps_nonzero_multiples
                         [0; -3; 3; 9; 5; -6; 7]))
           (filter_schedule special_keep [0; -3; 3; 9; 5; -6; 7])).
  - reflexivity.
  - reflexivity.
  - reflexivity.
Defined.

(** ** C8 *)

Lemma go_eta {A : Type} (m : Go A) (n : nat) :
  m n = (value m n, counter m n, actions m n).
Proof. unfold value, counter, actions. destruct (m n) as [[a n1] acts]. reflexivity. Qed.

Lemma range_stages_cons (stage : StageInt) (rest : list StageInt)
    (done c : chan) (n : nat) :
  range_stages (stage :: rest) done c n =
    (value (range_stages rest done (value (stage c done) n))
           (counter (stage c done) n),
     counter (range_stages rest done (value (stage c done) n))
             (counter (stage c done) n),
     actions (stage c done) n ++
     actions (range_stages rest done (value (stage c done) n))
             (counter (stage c done) n)).
Proof.
  simpl. unfold go_bind.
  rewrite (go_eta (stage c done) n).
  rewrite (go_eta (range_stages rest done _) _). reflexivity.
Qed.

Lemma range_stages_snoc (stages : list StageInt) (stage : StageInt)
    (done : chan) :
  forall (c : chan) (n : nat),
    range_stages (stages ++ [stage]) done c n =
      (value (stage (value (range_stages stages done c) n) done)
             (counter (range_stages stages done c) n),
       counter (stage (value (range_stages stages done c) n) done)
               (counter (range_stages stages done c) n),
       actions (range_stages stages done c) n ++
       actions (stage (value (range_stages stages done c) n) done)
               (counter (range_stages stages done c) n)).
Proof.
  induction stages as [|s0 stages IH]; intros c n.
  - simpl. unfold go_bind, go_ret, value, counter, actions. simpl.
    destruct (stage c done n) as [[c1 n1] a1]. simpl.
    rewrite app_nil_r. reflexivity.
  - simpl. unfold go_bind, value, counter, actions.
    destruct (s0 c done n) as [[c1 n1] a1].
    rewrite IH. unfold value, counter, actions.
    destruct (range_stages stages done c1 n1) as [[c2 n2] a2]. simpl.
    destruct (stage c2 done n2) as [[c3 n3] a3]. simpl.
    rewrite app_assoc. reflexivity.
Qed.

Lemma range_stages_quiet (stages : list StageInt) (done : chan) :
  (forall (stage : StageInt) (c : chan) (m : nat),
      In stage stages -> actions (stage c done) m = []) ->
  forall (c : chan) (n : nat), actions (range_stages stages done c) n = [].
Proof.
  induction stages as [|s0 stages IH]; intros Hq c n; [reflexivity|].
  unfold actions at 1. rewrite range_stages_cons. simpl.
  rewrite (Hq s0) by (left; reflexivity).
  rewrite IH; [reflexivity|].
  intros stage c' m Hin. apply Hq. right. assumption.
Qed.

(** C8.  [Run] on a pipeline with no stage returns the source and starts
    nothing.  With stages it calls them in construction order, each on
    the channel the one before returned and on the [done] of the
    pipeline, and returns what the last one returned; what is started
    during [Run] is what the stage calls start, in that order, and
    nothing when no stage starts anything. *)
Theorem Run_chains_stages (stages : list StageInt) (done source : chan)
    (n : nat) :
  Run (NewPipelineInt done []) source n = (source, n, []) /\
  (forall stage : StageInt,
      let first := stage source done in
      let rest :=
        Run (NewPipelineInt done stages) (value first n) in
      Run (NewPipelineInt done (stage :: stages)) source n =
        (value rest (counter first n),
         counter rest (counter first n),
         actions first n ++ actions rest (counter first n))) /\
  (forall stage : StageInt,
      let front := Run (NewPipelineInt done stages) source in
      let last := stage (value front n) done in
      Run (NewPipelineInt done (stages ++ [stage])) source n =
        (value last (counter front n),
         counter last (counter front n),
         actions front n ++ actions last (counter front n))) /\
  ((forall (stage : StageInt) (c : chan) (m : nat),
       In stage stages -> actions (stage c done) m = []) ->
   actions (Run (NewPipelineInt done stages) source) n = []).
Proof.
  split; [reflexivity|]. split; [|split].
  - intros stage. apply range_stages_cons.
  - intros stage. apply range_stages_snoc.
  - intros Hq. apply range_stages_quiet. assumption.
Qed.

Lemma Run_chains_stages_witness :
  actions (Run (NewPipelineInt 1%nat
                  [fun c _ => go_ret c; fun c _ => go_ret (S c)]) 0%nat)
          2%nat = [].
Proof.
  apply (proj2 (proj2 (proj2
    (Run_chains_stages [fun c _ => go_ret c; fun c _ => go_ret (S c)]
       1%nat 0%nat 2%nat)))).
  intros stage c m [<-|[<-|[]]]; reflexivity.
Defined.

(** The wiring of [main]: the source goroutine, one goroutine for each
    filter stage reading the channel of the stage before, and the three
    goroutines of the buffering stage; the consumer reads channel 4. *)
Lemma main_wiring_spec :
  main_wiring 0%nat =
    (4, 7,
     [ActGo (SourceReader 0 1);
      ActGo (FilterWorker negative_keep 0 1 2);
      ActGo (FilterWorker special_keep 2 1 3);
      ActWgAdd 6 1; ActGo (BufferCollector 3 1 5 6);
      ActWgAdd 6 1; ActGo (BufferDrainer 1 4 5 6);
      ActGo (BufferCloser 6 4)])%nat.
Proof. reflexivity. Qed.

(** ** The buffering stage *)

Ltac leb_cases :=
  repeat match goal with
         | H : context [(?a <=? ?b)%nat] |- _ => destruct (Nat.leb_spec a b)
         | |- context [(?a <=? ?b)%nat] => destruct (Nat.leb_spec a b)
         end;
  cbn [Z.b2z] in *.

Lemma closed_no_mark (vs : list Z) (kpc : closer_pc) :
  kpc <> KReturned -> closed (map ChSend vs ++ close_mark kpc) = false.
Proof.
  intros Hk. rewrite closed_app, closed_sends.
  destruct kpc; simpl; auto. congruence.
Qed.

Ltac buffer_simpl :=
  cbn [b_input b_done b_buffer b_wg b_launch b_collector b_drainer b_closer
       b_output with_input with_done with_buffer with_wg with_launch
       with_collector with_drainer with_closer with_output
       started_c started_d started_k returned_c returned_d past_wait
       close_mark drainer_in_range] in *.

Ltac solve_inv K VS :=
  unfold buffer_inv; buffer_simpl;
  split; [try assumption
  |split; [first [exact I | assumption | idtac]
  |split; [exists VS; first [assumption | idtac]
  |split; [first [assumption | idtac]
  |exists K;
   split; [try lia
   |split; [first [assumption | reflexivity | idtac]
   |split; [first [assumption | reflexivity | idtac]
   |split; [first [assumption | reflexivity | idtac]
   |split; [first [assumption | reflexivity | idtac]
           |first [lia | unfold adds; simpl; lia | idtac]]]]]]]]]].

Section BufferFacts.
Variable acts : list action.
Hypothesis Hprog : buffer_program acts.

Lemma buffer_inv_init (r : RingIntBuffer) (input : list Z) :
  ring_ok r -> buffer_inv acts (buffer_init acts r input).
Proof.
  intros Hr. unfold buffer_inv, buffer_init; simpl.
  split; [assumption|]. split; [exact I|].
  split; [exists []; reflexivity|]. split; [discriminate|].
  exists 0%nat. rewrite drop_0. unfold adds. simpl.
  repeat split; lia.
Qed.

Lemma buffer_step_keeps (e : buffer_event) (s s' : buffer_state) :
  buffer_inv acts s -> buffer_step e s = Next s' -> buffer_inv acts s'.
Proof.
  intros (Hring & Hrange & (vs & Hout) & Hpast & k & Hk & Hlaunch & Hc & Hd & Hkk & Hwg).
  destruct s as [inp dn buf wg la cpc dpc kpc out]; buffer_simpl.
  destruct e; unfold buffer_step; buffer_simpl.
  - (* BCancel *)
    destruct dn; [discriminate|]. intros [= <-].
    solve_inv k vs.
  - (* BLaunch *)
    unfold buffer_launch; buffer_simpl.
    destruct Hprog as (i & d & o & b & w & Hacts).
    rewrite Hlaunch, Hacts. unfold adds in Hwg.
    destruct k as [|[|[|[|[|[|k]]]]]]; simpl; try lia; try discriminate;
      destruct cpc; try discriminate; destruct dpc; try discriminate;
      destruct kpc; try discriminate; simpl in *; subst wg;
      unfold wg_add; simpl; intros [= <-].
    all: try solve [solve_inv 1%nat vs; discriminate].
    all: try solve [solve_inv 2%nat vs; discriminate].
    all: try solve [solve_inv 3%nat vs; discriminate].
    all: try solve [solve_inv 4%nat vs; discriminate].
    all: try solve [solve_inv 5%nat vs; discriminate].
  - (* BCollectorInput *)
    destruct cpc; try discriminate.
    destruct inp as [|data rest].
    + unfold collector_return, wg_add; buffer_simpl.
      destruct (Z.ltb_spec (wg + -1) 0); [discriminate|]. intros [= <-].
      solve_inv k vs.
      intros Hp. destruct (Hpast Hp). discriminate.
    + intros [= <-]. solve_inv k vs.
      intros Hp. destruct (Hpast Hp). discriminate.
  - (* BCollectorPush *)
    destruct cpc; try discriminate.
    rewrite call_Push by assumption. intros [= <-].
    solve_inv k vs.
    + apply pushed_ok. assumption.
    + intros Hp. destruct (Hpast Hp). discriminate.
  - (* BCollectorDone *)
    destruct cpc; try discriminate.
    destruct dn; [|discriminate].
    unfold collector_return, wg_add; buffer_simpl.
    destruct (Z.ltb_spec (wg + -1) 0); [discriminate|]. intros [= <-].
    solve_inv k vs.
    intros Hp. destruct (Hpast Hp). discriminate.
  - (* BDrainerTimer *)
    destruct dpc; try discriminate.
    rewrite call_load_pos.
    destruct (pos buf <? 0); intros [= <-]; solve_inv k vs.
    intros Hpw. destruct (Hpast Hpw). discriminate.
  - (* BDrainerGet *)
    destruct dpc; try discriminate.
    rewrite call_Get_locked by assumption. intros [= <-].
    destruct Hring as (Hmu & Hlen & Hs & Hp).
    assert (Hn : length (take (Z.to_nat (pos buf + 1)) (array buf))
                 = Z.to_nat (pos buf + 1)) by (rewrite length_take; lia).
    rewrite Hn. unfold range_from.
    destruct (Nat.ltb_spec 0 (Z.to_nat (pos buf + 1))).
    + solve_inv k vs.
      * unfold ring_ok, drained; simpl. lia.
      * simpl. split; lia.
      * intros Hpw. destruct (Hpast Hpw). discriminate.
    + solve_inv k vs.
      * unfold ring_ok, drained; simpl. lia.
      * intros Hpw. destruct (Hpast Hpw). discriminate.
  - (* BDrainerLoad *)
    destruct dpc; try discriminate.
    destruct (array buf !! i) as [v|]; [|discriminate]. intros [= <-].
    solve_inv k vs.
    intros Hp. destruct (Hpast Hp). discriminate.
  - (* BDrainerSend *)
    destruct dpc; try discriminate.
    assert (Hkpc : kpc <> KReturned).
    { intros ->. destruct (Hpast eq_refl). discriminate. }
    unfold chan_send. rewrite Hout, closed_no_mark by assumption.
    intros [= <-].
    assert (Hmark : close_mark kpc = []) by (destruct kpc; auto; congruence).
    unfold range_from. destruct (Nat.ltb_spec (S i) n).
    + solve_inv k (vs ++ [v]).
      * destruct Hrange. split; lia.
      * rewrite Hmark, !app_nil_r, map_app. reflexivity.
      * intros Hp. destruct (Hpast Hp). discriminate.
    + solve_inv k (vs ++ [v]).
      * rewrite Hmark, !app_nil_r, map_app. reflexivity.
      * intros Hp. destruct (Hpast Hp). discriminate.
  - (* BDrainerDone *)
    destruct dpc; try discriminate;
      (destruct dn; [|discriminate]);
      unfold drainer_return, wg_add; buffer_simpl;
      (destruct (Z.ltb_spec (wg + -1) 0); [discriminate|]); intros [= <-];
      solve_inv k vs; intros Hp; destruct (Hpast Hp); discriminate.
  - (* BCloserWait *)
    destruct kpc; try discriminate.
    destruct (Z.eqb_spec wg 0) as [Hz|]; [|discriminate]. intros [= <-].
    solve_inv k vs.
    intros _. unfold adds in Hwg.
    destruct cpc, dpc; buffer_simpl; leb_cases; try lia; try discriminate.
    auto.
  - (* BCloserClose *)
    destruct kpc; try discriminate.
    unfold chan_close. rewrite Hout, closed_no_mark by discriminate.
    intros [= <-]. solve_inv k vs.
    rewrite app_nil_r. reflexivity.
Qed.
End BufferFacts.

Section BufferSafety.
Variable acts : list action.
Hypothesis Hprog : buffer_program acts.

Lemma buffer_step_safe (e : buffer_event) (s : buffer_state) (f : fault) :
  buffer_inv acts s -> buffer_step e s <> Crash f.
Proof.
  intros (Hring & Hrange & (vs & Hout) & Hpast & k & Hk & Hlaunch & Hc & Hd & Hkk & Hwg).
  destruct s as [inp dn buf wg la cpc dpc kpc out]; buffer_simpl.
  destruct e; unfold buffer_step; buffer_simpl.
  - (* BCancel *) destruct dn; discriminate.
  - (* BLaunch *)
    unfold buffer_launch; buffer_simpl.
    destruct Hprog as (i & d & o & b & w & Hacts).
    rewrite Hlaunch, Hacts. unfold adds in Hwg.
    destruct k as [|[|[|[|[|[|k]]]]]]; simpl; try lia; try discriminate;
      destruct cpc; try discriminate; destruct dpc; try discriminate;
      simpl in *; subst wg; unfold wg_add; simpl; discriminate.
  - (* BCollectorInput *)
    destruct cpc; try discriminate.
    destruct inp; [|discriminate].
    unfold collector_return, wg_add; buffer_simpl.
    destruct (Z.ltb_spec (wg + -1) 0); [|discriminate].
    exfalso. unfold adds in Hwg.
    destruct dpc; buffer_simpl; leb_cases; try lia; discriminate.
  - (* BCollectorPush *)
    destruct cpc; try discriminate.
    rewrite call_Push by assumption. discriminate.
  - (* BCollectorDone *)
    destruct cpc; try discriminate. destruct dn; [|discriminate].
    unfold collector_return, wg_add; buffer_simpl.
    destruct (Z.ltb_spec (wg + -1) 0); [|discriminate].
    exfalso. unfold adds in Hwg.
    destruct dpc; buffer_simpl; leb_cases; try lia; discriminate.
  - (* BDrainerTimer *)
    destruct dpc; try discriminate.
    rewrite call_load_pos. destruct (pos buf <? 0); discriminate.
  - (* BDrainerGet *)
    destruct dpc; try discriminate.
    rewrite call_Get_locked by assumption. discriminate.
  - (* BDrainerLoad *)
    destruct dpc; try discriminate.
    destruct Hring as (Hmu & Hlen & Hs & Hp). destruct Hrange as [Hi Hn].
    destruct (lookup_lt_is_Some_2 (array buf) i) as [v Hv]; [lia|].
    rewrite Hv. discriminate.
  - (* BDrainerSend *)
    destruct dpc; try discriminate.
    assert (Hkpc : kpc <> KReturned).
    { intros ->. destruct (Hpast eq_refl). discriminate. }
    unfold chan_send. rewrite Hout, closed_no_mark by assumption.
    discriminate.
  - (* BDrainerDone *)
    destruct dpc; try discriminate; (destruct dn; [|discriminate]);
      unfold drainer_return, wg_add; buffer_simpl;
      (destruct (Z.ltb_spec (wg + -1) 0); [|discriminate]);
      exfalso; unfold adds in Hwg;
      destruct cpc; buffer_simpl; leb_cases; try lia; discriminate.
  - (* BCloserWait *)
    destruct kpc; try discriminate. destruct (wg =? 0); discriminate.
  - (* BCloserClose *)
    destruct kpc; try discriminate.
    unfold chan_close. rewrite Hout, closed_no_mark by discriminate.
    discriminate.
Qed.

(** Once the output is closed nothing is left to run but the
    cancellation itself. *)
Lemma buffer_closed_quiet (s : buffer_state) :
  buffer_inv acts s -> closed (b_output s) = true ->
  b_closer s = KReturned /\ b_collector s = CReturned /\
  b_drainer s = DReturned /\ b_launch s = [].
Proof.
  intros (Hring & Hrange & (vs & Hout) & Hpast & k & Hk & Hlaunch & Hc & Hd & Hkk & Hwg).
  intros Hcl. rewrite Hout, closed_app, closed_sends in Hcl.
  destruct (b_closer s) eqn:Hkpc; try discriminate.
  destruct (Hpast eq_refl) as [-> ->].
  split; [reflexivity|]. split; [reflexivity|]. split; [reflexivity|].
  rewrite Hlaunch.
  destruct Hprog as (i & d & o & b & w & ->).
  buffer_simpl. destruct (Nat.leb_spec 5 k); [|discriminate].
  replace k with 5%nat by lia. reflexivity.
Qed.

Lemma buffer_quiet_step (e : buffer_event) (s s' : buffer_state) :
  buffer_inv acts s -> closed (b_output s) = true ->
  buffer_step e s = Next s' -> b_output s' = b_output s.
Proof.
  intros Hinv Hcl.
  destruct (buffer_closed_quiet s Hinv Hcl) as (Hk & Hc & Hd & Hl).
  destruct s as [inp dn buf wg la cpc dpc kpc out]; buffer_simpl. subst.
  destruct e; unfold buffer_step, buffer_launch; buffer_simpl;
    try discriminate.
  destruct dn; [discriminate|]. intros [= <-]. reflexivity.
Qed.

Lemma buffer_quiet_run (sched : list buffer_event) :
  forall s s' : buffer_state,
    buffer_inv acts s -> closed (b_output s) = true ->
    run buffer_step sched s = Next s' -> b_output s' = b_output s.
Proof.
  induction sched as [|e sched IH]; intros s s' Hinv Hcl; simpl.
  - intros [= <-]. reflexivity.
  - destruct (buffer_step e s) as [s1| |f] eqn:Hstep; try discriminate.
    intros Hrun.
    pose proof (buffer_quiet_step e s s1 Hinv Hcl Hstep) as Hout.
    rewrite <- Hout. apply IH; [|rewrite Hout|]; try assumption.
    eapply buffer_step_keeps; eassumption.
Qed.
End BufferSafety.

Lemma bufferStageInt_program (i d : chan) (n : nat) :
  buffer_program (actions (bufferStageInt i d) n).
Proof. exists i, d, n, (S n), (S (S n)). reflexivity. Qed.

Lemma new_buffer_ok (r : RingIntBuffer) :
  NewRingIntBuffer bufferSize = Ok r -> ring_ok r.
Proof.
  intros Hnew.
  destruct (new_ok bufferSize) as (r' & Hr' & Hok & _);
    [unfold bufferSize, int_max; lia|].
  rewrite Hr' in Hnew. injection Hnew as <-. assumption.
Qed.

(** ** C9 *)

(** C9.  The buffering stage, started by [bufferStageInt] on any input,
    under every schedule: no step panics, so there is no send on the
    closed output and no second close; the history of the output is
    sends followed by at most one close; when the output is closed, the
    collector and the drainer have returned, and whatever runs
    afterwards leaves the history as it is. *)
Theorem buffer_output_closed_after_workers (i d : chan) (n : nat)
    (r : RingIntBuffer) (input : list Z)
    (Hnew : NewRingIntBuffer bufferSize = Ok r) :
  let s0 := buffer_init (actions (bufferStageInt i d) n) r input in
  (forall (sched : list buffer_event) (f : fault),
      run buffer_step sched s0 <> Crash f) /\
  (forall (sched : list buffer_event) (s : buffer_state),
      run buffer_step sched s0 = Next s ->
      (exists vs : list Z,
          b_output s = map ChSend vs \/
          b_output s = map ChSend vs ++ [ChClose]) /\
      (closed (b_output s) = true ->
       b_collector s = CReturned /\ b_drainer s = DReturned /\
       b_closer s = KReturned) /\
      (b_closer s = KReturned -> closed (b_output s) = true) /\
      (forall (sched' : list buffer_event) (s' : buffer_state),
          closed (b_output s) = true ->
          run buffer_step sched' s = Next s' ->
          b_output s' = b_output s)).
Proof.
  intros s0.
  pose proof (bufferStageInt_program i d n) as Hprog.
  pose proof (buffer_inv_init (actions (bufferStageInt i d) n) r input
                (new_buffer_ok r Hnew)) as Hinit.
  split.
  - intros sched f.
    apply (run_safe buffer_step
             (buffer_inv (actions (bufferStageInt i d) n))).
    + intros e s1 s2. apply buffer_step_keeps. assumption.
    + intros e s1 f1. apply buffer_step_safe. assumption.
    + exact Hinit.
  - intros sched s Hrun.
    assert (Hinv : buffer_inv (actions (bufferStageInt i d) n) s).
    { revert Hrun. apply run_keeps; [|exact Hinit].
      intros e s1 s2. apply buffer_step_keeps. assumption. }
    split; [|split; [|split]].
    + destruct Hinv as (_ & _ & (vs & Hout) & _).
      exists vs. rewrite Hout.
      destruct (b_closer s); simpl; rewrite ?app_nil_r; auto.
    + intros Hcl.
      destruct (buffer_closed_quiet _ Hprog s Hinv Hcl) as (Hk & Hc & Hd & _).
      auto.
    + intros Hk. destruct Hinv as (_ & _ & (vs & Hout) & _).
      rewrite Hout, Hk, closed_app. simpl. apply orb_true_r.
    + intros sched' s' Hcl Hrun'.
      apply (buffer_quiet_run _ Hprog sched' s s' Hinv Hcl Hrun').
Qed.

Lemma buffer_output_closed_after_workers_witness :
  let r := mkRing (replicate 10 0) (-1) 10 false in
  let s0 := buffer_init (actions (bufferStageInt 3%nat 1%nat) 4%nat) r [3; 6] in
  let sched := launch_schedule ++
               [BCollectorInput; BCollectorPush; BDrainerTimer; BDrainerGet;
                BDrainerLoad; BDrainerSend; BCancel; BCollectorDone;
                BDrainerDone; BCloserWait; BCloserClose] in
  let s := mkBuffer [6] true (mkRing [3; 0; 0; 0; 0; 0; 0; 0; 0; 0] (-1) 10 false)
             0 [] CReturned DReturned KReturned [ChSend 3; ChClose] in
  run buffer_step sched s0 = Next s /\
  (exists vs : list Z,
      b_output s = map ChSend vs \/
      b_output s = map ChSend vs ++ [ChClose]) /\
  (closed (b_output s) = true ->
   b_collector s = CReturned /\ b_drainer s = DReturned /\
   b_closer s = KReturned) /\
  (b_closer s = KReturned -> closed (b_output s) = true) /\
  (forall (sched' : list buffer_event) (s' : buffer_state),
      closed (b_output s) = true ->
      run buffer_step sched' s = Next s' ->
      b_output s' = b_output s).
Proof.
  cbv zeta. split; [vm_compute; reflexivity|].
  apply (proj2 (buffer_output_closed_after_workers 3%nat 1%nat 4%nat
                  (mkRing (replicate 10 0) (-1) 10 false) [3; 6] eq_refl)
           (launch_schedule ++
            [BCollectorInput; BCollectorPush; BDrainerTimer; BDrainerGet;
             BDrainerLoad; BDrainerSend; BCancel; BCollectorDone;
             BDrainerDone; BCloserWait; BCloserClose])).
  vm_compute. reflexivity.
Defined.

(** ** One batch through the buffering stage *)

(** The collector alone: it takes and pushes the values one by one. *)
Lemma collect_run (dn : bool) (wg : Z) (la : list action)
    (dpc : drainer_pc) (kpc : closer_pc) (out : list chan_op)
    (items : list Z) :
  forall (rest : list Z) (buf : RingIntBuffer),
    run buffer_step (collect_schedule (length items))
        (mkBuffer (items ++ rest) dn buf wg la CSelect dpc kpc out)
    = match push_all items buf with
      | Ok buf' => Next (mkBuffer rest dn buf' wg la CSelect dpc kpc out)
      | Fault f => Crash f
      end.
Proof.
  induction items as [|v items IH]; intros rest buf; [reflexivity|].
  simpl. destruct (call (Push v) buf) as [[[] buf1]|f]; [|reflexivity].
  apply IH.
Qed.

(** The drainer alone, inside [range data]: from index [i] on it sends
    the elements of the array up to index [n]. *)
Lemma emit_loop_run (inp : list Z) (dn : bool) (buf : RingIntBuffer)
    (wg : Z) (la : list action) (cpc : collector_pc) (kpc : closer_pc)
    (m : nat) :
  forall (i n : nat) (vs : list Z),
    (i + m)%nat = n -> (n <= length (array buf))%nat ->
    run buffer_step (concat (replicate m [BDrainerLoad; BDrainerSend]))
        (mkBuffer inp dn buf wg la cpc (range_from i n) kpc (map ChSend vs))
    = Next (mkBuffer inp dn buf wg la cpc DSelect kpc
              (map ChSend (vs ++ take m (drop i (array buf))))).
Proof.
  induction m as [|m IH]; intros i n vs Hm Hn.
  - simpl. unfold range_from.
    destruct (Nat.ltb_spec i n); [lia|]. rewrite app_nil_r. reflexivity.
  - unfold range_from at 1. destruct (Nat.ltb_spec i n); [|lia].
    destruct (lookup_lt_is_Some_2 (array buf) i) as [v Hv]; [lia|].
    change (concat (replicate (S m) [BDrainerLoad; BDrainerSend]))
      with (BDrainerLoad :: BDrainerSend ::
            concat (replicate m [BDrainerLoad; BDrainerSend])).
    cbn [run]. unfold buffer_step at 1. buffer_simpl.
    rewrite Hv. unfold buffer_step at 1. buffer_simpl.
    unfold chan_send. rewrite closed_sends.
    unfold with_output, with_drainer. buffer_simpl.
    replace (map ChSend vs ++ [ChSend v]) with (map ChSend (vs ++ [v]))
      by (rewrite map_app; reflexivity).
    rewrite (IH (S i) n (vs ++ [v])) by lia.
    rewrite (drop_S _ _ _ Hv). simpl. rewrite <- app_assoc. reflexivity.
Qed.

(** The timer fires on a buffer that holds something: [Get], then the
    elements of slots 0 to [pos] are sent in order. *)
Lemma emit_run (inp : list Z) (dn : bool) (buf : RingIntBuffer)
    (wg : Z) (la : list action) (cpc : collector_pc) (kpc : closer_pc)
    (vs : list Z) :
  ring_ok buf -> 0 <= pos buf ->
  run buffer_step (emit_schedule (Z.to_nat (pos buf + 1)))
      (mkBuffer inp dn buf wg la cpc DSelect kpc (map ChSend vs))
  = Next (mkBuffer inp dn (drained buf) wg la cpc DSelect kpc
            (map ChSend (vs ++ take (Z.to_nat (pos buf + 1)) (array buf)))).
Proof.
  intros Hok Hpos. unfold emit_schedule.
  change ([BDrainerTimer; BDrainerGet] ++ ?l)
    with (BDrainerTimer :: BDrainerGet :: l).
  cbn [run]. unfold buffer_step at 1. buffer_simpl.
  rewrite call_load_pos. destruct (Z.ltb_spec (pos buf) 0); [lia|].
  unfold buffer_step at 1. buffer_simpl.
  rewrite call_Get_locked by assumption.
  unfold with_buffer, with_drainer. buffer_simpl.
  destruct Hok as (Hmu & Hlen & Hs & Hp).
  rewrite length_take.
  replace (Z.to_nat (pos buf + 1) `min` length (array buf))%nat
    with (Z.to_nat (pos buf + 1)) by lia.
  rewrite (emit_loop_run inp dn (drained buf) wg la cpc kpc
             (Z.to_nat (pos buf + 1)) 0 (Z.to_nat (pos buf + 1)) vs)
    by (simpl; lia).
  rewrite drop_0. reflexivity.
Qed.

(** The stage function alone: after its five statements both counted
    workers and the closer are started. *)
Lemma launch_run (acts : list action) (r : RingIntBuffer) (input : list Z) :
  buffer_program acts ->
  run buffer_step launch_schedule (buffer_init acts r input)
  = Next (mkBuffer input false r 2 [] CSelect DSelect KWait []).
Proof. intros (i & d & o & b & w & ->). reflexivity. Qed.

(** A batch that fits the buffer, pushed before the timer fires: nothing
    is sent while it is collected, and after the timer has fired once the
    batch is sent in the order it arrived. *)
Lemma buffer_stage_batch (acts : list action) (r : RingIntBuffer)
    (items : list Z) :
  buffer_program acts ->
  NewRingIntBuffer bufferSize = Ok r ->
  (0 < length items)%nat -> Z.of_nat (length items) <= bufferSize ->
  let held :=
    mkRing (items ++ drop (length items) (replicate 10 0))
           (Z.of_nat (length items) - 1) bufferSize false in
  run buffer_step (launch_schedule ++ collect_schedule (length items))
      (buffer_init acts r items)
    = Next (mkBuffer [] false held 2 [] CSelect DSelect KWait []) /\
  run buffer_step (emit_schedule (length items))
      (mkBuffer [] false held 2 [] CSelect DSelect KWait [])
    = Next (mkBuffer [] false (drained held) 2 [] CSelect DSelect KWait
              (map ChSend items)).
Proof.
  intros Hprog Hnew Hpos Hfit held.
  assert (Hr : r = mkRing (replicate 10 0) (-1) bufferSize false).
  { unfold NewRingIntBuffer in Hnew. simpl in Hnew.
    injection Hnew as <-. reflexivity. }
  assert (Hpush : push_all items r = Ok held).
  { destruct items as [|v l]; [simpl in Hpos; lia|].
    rewrite (push_all_chunk l v r 0%nat).
    - subst r held. simpl. do 2 f_equal. simpl length. lia.
    - apply new_buffer_ok. assumption.
    - subst r. reflexivity.
    - subst r. simpl in *. unfold bufferSize in Hfit. lia. }
  assert (Hheld : ring_ok held).
  { unfold ring_ok, held. cbn [array pos size mu].
    rewrite length_app, length_drop, length_replicate.
    unfold bufferSize, int_max in *. lia. }
  split.
  - rewrite run_app, (launch_run acts r items Hprog).
    rewrite <- (app_nil_r items) at 2.
    rewrite collect_run, Hpush. reflexivity.
  - pose proof (emit_run [] false held 2 [] CSelect KWait [] Hheld) as Hemit.
    assert (Hn : Z.to_nat (pos held + 1) = length items)
      by (unfold held; cbn [pos]; lia).
    rewrite Hn in Hemit.
    change (map ChSend []) with (@nil chan_op) in Hemit.
    rewrite Hemit by (unfold held; cbn [pos]; lia).
    change (array held)
      with (items ++ drop (length items) (replicate 10 0)).
    rewrite app_nil_l, take_app_length. reflexivity.
Qed.

(** The order of emission rests on the schedule.  When the collector
    pushes between [Get] and the reading of [data[0]], the drainer sends
    the new value from the slot it shares with the buffer; the value
    [Get] had returned is never sent, and the new one is sent again
    after the next firing of the timer. *)
Lemma drainer_reads_overwritten_slot :
  let r := mkRing (replicate 10 0) (-1) 10 false in
  run buffer_step
      (launch_schedule ++
       [BCollectorInput; BCollectorPush; BDrainerTimer; BDrainerGet;
        BCollectorInput; BCollectorPush; BDrainerLoad; BDrainerSend] ++
       emit_schedule 1)
      (buffer_init (actions (bufferStageInt 3%nat 1%nat) 4%nat) r [1; 2])
  = Next (mkBuffer [] false (mkRing [2; 0; 0; 0; 0; 0; 0; 0; 0; 0] (-1) 10 false)
            2 [] CSelect DSelect KWait [ChSend 2; ChSend 2]).
Proof. vm_compute. reflexivity. Qed.

(** ** C4 *)

(** C4.  The end-to-end scenario, [done] open throughout.  Of
    [-5; 3; 0; 6; 7; 9; -3; 12] the negative filter, however it is
    scheduled, sends all but -5 and -3; of these the multiple-of-three
    filter sends 3, 6, 9, 12 and drops 0 and 7; the buffering stage,
    having pushed the four values, has sent nothing before the timer
    fires, and after it has fired once sends 3, 6, 9, 12 in that
    order. *)
Theorem end_to_end_scenario :
  let input := [-5; 3; 0; 6; 7; 9; -3; 12] in
  let r := mkRing (replicate 10 0) (-1) 10 false in
  let held := mkRing [3; 6; 9; 12; 0; 0; 0; 0; 0; 0] 3 10 false in
  let collected :=
    mkBuffer [] false held 2 [] CSelect DSelect KWait [] in
  (forall (sched : list filter_event) (s : filter_state),
      run (filter_step negative_keep) sched (filter_init input) = Next s ->
      f_pc s = FReturned -> f_done s = false ->
      f_output s = map ChSend [3; 0; 6; 7; 9; 12] ++ [ChClose]) /\
  (forall (sched : list filter_event) (s : filter_state),
      run (filter_step special_keep) sched (filter_init [3; 0; 6; 7; 9; 12])
        = Next s ->
      f_pc s = FReturned -> f_done s = false ->
      f_output s = map ChSend [3; 6; 9; 12] ++ [ChClose]) /\
  run (filter_step negative_keep) (filter_schedule negative_keep input)
      (filter_init input)
    = Next (mkFilter [] false FReturned
              (map ChSend [3; 0; 6; 7; 9; 12] ++ [ChClose])) /\
  run (filter_step special_keep)
      (filter_schedule special_keep [3; 0; 6; 7; 9; 12])
      (filter_init [3; 0; 6; 7; 9; 12])
    = Next (mkFilter [] false FReturned
              (map ChSend [3; 6; 9; 12] ++ [ChClose])) /\
  NewRingIntBuffer bufferSize = Ok r /\
  run buffer_step (launch_schedule ++ collect_schedule 4)
      (buffer_init (actions (bufferStageInt 3%nat 1%nat) 4%nat) r [3; 6; 9; 12])
    = Next collected /\
  run buffer_step (emit_schedule 4) collected
    = Next (mkBuffer [] false (drained held) 2 [] CSelect DSelect KWait
              (map ChSend [3; 6; 9; 12])).
Proof.
  cbv zeta. split; [|split].
  - intros sched s Hrun Hret Hlive.
    destruct (filter_stage_sends negative_keep [-5; 3; 0; 6; 7; 9; -3; 12])
      as [_ Hall].
    destruct (Hall sched s Hrun) as [_ Hout]. apply (Hout Hret Hlive).
  - intros sched s Hrun Hret Hlive.
    destruct (filter_stage_sends special_keep [3; 0; 6; 7; 9; 12])
      as [_ Hall].
    destruct (Hall sched s Hrun) as [_ Hout]. apply (Hout Hret Hlive).
  - split; [vm_compute; reflexivity|]. split; [vm_compute; reflexivity|].
    split; [reflexivity|].
    apply (buffer_stage_batch (actions (bufferStageInt 3%nat 1%nat) 4%nat)
             (mkRing (replicate 10 0) (-1) 10 false) [3; 6; 9; 12]).
    + apply bufferStageInt_program.
    + reflexivity.
    + simpl. lia.
    + unfold bufferSize. simpl. lia.
Qed.

Lemma end_to_end_scenario_witness :
  f_output (mkFilter [] false FReturned
              [ChSend 3; ChSend 0; ChSend 6; ChSend 7; ChSend 9; ChSend 12;
               ChClose])
    = map ChSend [3; 0; 6; 7; 9; 12] ++ [ChClose] /\
  f_output (mkFilter [] false FReturned
              [ChSend 3; ChSend 6; ChSend 9; ChSend 12; ChClose])
    = map ChSend [3; 6; 9; 12] ++ [ChClose].
Proof.
  split.
  - apply (proj1 end_to_end_scenario
             (filter_schedule negative_keep [-5; 3; 0; 6; 7; 9; -3; 12]));
      reflexivity.
  - apply (proj1 (proj2 end_to_end_scenario)
             (filter_schedule special_keep [3; 0; 6; 7; 9; 12]));
      reflexivity.
Defined.

(* ===================================================================== *)
(** * Part III: further properties of the program                         *)
(* ===================================================================== *)

(** ** The filter stages under cancellation *)

(** X1.  A filter stage under any schedule, cancellation included: no
    step panics; what it has sent is an initial part of the values of
    its input that pass its test, in input order; the history of its
    output is sends followed by one close exactly when the goroutine has
    returned. *)
Theorem filter_stage_safe_under_cancel (keep : Z -> bool) (input : list Z)
    (sched : list filter_event) :
  (forall f : fault,
      run (filter_step keep) sched (filter_init input) <> Crash f) /\
  (forall s : filter_state,
      run (filter_step keep) sched (filter_init input) = Next s ->
      sent (f_output s) `prefix_of` List.filter keep input /\
      (f_pc s = FReturned ->
       f_output s = map ChSend (sent (f_output s)) ++ [ChClose]) /\
      (f_pc s <> FReturned ->
       f_output s = map ChSend (sent (f_output s)))).
Proof.
  split; [intros f; apply filter_run_safe|].
  intros s Hrun. destruct (filter_run_inv keep input sched s Hrun) as [vs Hinv].
  destruct (f_pc s) eqn:Hpc.
  - destruct Hinv as (-> & Hvs). rewrite sent_sends.
    split; [eexists; symmetry; exact Hvs|]. split; [discriminate|reflexivity].
  - destruct Hinv as (-> & _ & Hvs). rewrite sent_sends.
    split; [eexists; symmetry; exact Hvs|]. split; [discriminate|reflexivity].
  - destruct Hinv as (-> & Hpre & _).
    rewrite sent_app, sent_sends. simpl. rewrite app_nil_r.
    split; [exact Hpre|]. split; [reflexivity|congruence].
Qed.

Lemma filter_stage_safe_under_cancel_witness :
  let s := mkFilter [9; 12] true FReturned [ChSend 3; ChSend 6; ChClose] in
  sent (f_output s) `prefix_of` List.filter special_keep [3; 5; 6; 0; 9; 12] /\
  (f_pc s = FReturned ->
   f_output s = map ChSend (sent (f_output s)) ++ [ChClose]) /\
  (f_pc s <> FReturned -> f_output s = map ChSend (sent (f_output s))).
Proof.
  apply (proj2 (filter_stage_safe_under_cancel special_keep [3; 5; 6; 0; 9; 12]
                  [FTakeInput; FTakeSend; FTakeInput; FTakeInput; FTakeSend;
                   FCancel; FTakeInput; FTakeDone])).
  reflexivity.
Defined.

(** X2.  A filter stage can always answer the cancellation: in every
    state it reaches, once [done] is closed and the goroutine has not
    returned, the [done] case of the select it waits at is open; taking
    it closes the output, sends nothing more and ends the goroutine. *)
Theorem filter_stage_answers_cancel (keep : Z -> bool) (input : list Z)
    (sched : list filter_event) (s : filter_state)
    (Hrun : run (filter_step keep) sched (filter_init input) = Next s)
    (Hdone : f_done s = true) (Hlive : f_pc s <> FReturned) :
  exists s' : filter_state,
    filter_step keep FTakeDone s = Next s' /\
    f_pc s' = FReturned /\
    f_output s' = f_output s ++ [ChClose] /\
    sent (f_output s') = sent (f_output s).
Proof.
  destruct (filter_run_inv keep input sched s Hrun) as [vs Hinv].
  unfold filter_step, filter_return, chan_close. rewrite Hdone.
  destruct (f_pc s) eqn:Hpc; [| |congruence].
  - destruct Hinv as (Ho & _). rewrite Ho, closed_sends.
    eexists. split; [reflexivity|]. simpl.
    rewrite sent_app. simpl. rewrite app_nil_r. auto.
  - destruct Hinv as (Ho & _). rewrite Ho, closed_sends.
    eexists. split; [reflexivity|]. simpl.
    rewrite sent_app. simpl. rewrite app_nil_r. auto.
Qed.

Lemma filter_stage_answers_cancel_witness :
  exists s' : filter_state,
    filter_step negative_keep FTakeDone
      (mkFilter [-1; 7] true (FSending 4) [ChSend 2]) = Next s' /\
    f_pc s' = FReturned /\
    f_output s' = [ChSend 2] ++ [ChClose] /\
    sent (f_output s') = sent [ChSend 2].
Proof.
  apply (filter_stage_answers_cancel negative_keep [2; 4; -1; 7]
           [FTakeInput; FTakeSend; FCancel; FTakeInput]).
  - reflexivity.
  - reflexivity.
  - discriminate.
Defined.

Lemma filter_twice (f g : Z -> bool) (l : list Z) :
  List.filter g (List.filter f l) = List.filter (fun v => f v && g v) l.
Proof.
  induction l as [|v l IH]; [reflexivity|]. simpl.
  destruct (f v); simpl; [destruct (g v)|]; rewrite IH; reflexivity.
Qed.

Lemma keep_both (v : Z) :
  negative_keep v && special_keep v = (0 <? v) && (Z.rem v 3 =? 0).
Proof.
  unfold negative_keep, special_keep.
  destruct (Z.leb_spec 0 v), (Z.ltb_spec 0 v), (Z.eqb_spec v 0);
    simpl; try lia; try reflexivity.
Qed.

(** X3.  The two filters in the order of [main], each run to its return
    with [done] open, the second on what the first sent: the values that
    come out are the values of the input that are greater than 0 and
    have remainder 0 by 3, in input order. *)
Theorem filters_in_series (input : list Z)
    (sched1 sched2 : list filter_event) (s1 s2 : filter_state)
    (Hrun1 : run (filter_step negative_keep) sched1 (filter_init input)
             = Next s1)
    (Hret1 : f_pc s1 = FReturned) (Hlive1 : f_done s1 = false)
    (Hrun2 : run (filter_step special_keep) sched2
               (filter_init (sent (f_output s1))) = Next s2)
    (Hret2 : f_pc s2 = FReturned) (Hlive2 : f_done s2 = false) :
  sent (f_output s2)
    = List.filter (fun v => (0 <? v) && (Z.rem v 3 =? 0)) input /\
  (forall v : Z,
      In v (sent (f_output s2)) <-> In v input /\ 0 < v /\ Z.rem v 3 = 0).
Proof.
  assert (Hsent : forall keep inp sched s,
             run (filter_step keep) sched (filter_init inp) = Next s ->
             f_pc s = FReturned -> f_done s = false ->
             sent (f_output s) = List.filter keep inp).
  { intros keep inp sched s Hrun Hret Hlive.
    destruct (filter_run_inv keep inp sched s Hrun) as [vs Hinv].
    rewrite Hret in Hinv. destruct Hinv as (-> & _ & Hall).
    rewrite sent_app, sent_sends. simpl. rewrite app_nil_r. auto. }
  rewrite (Hsent _ _ _ _ Hrun2 Hret2 Hlive2).
  rewrite (Hsent _ _ _ _ Hrun1 Hret1 Hlive1).
  rewrite filter_twice, (filter_ext _ _ keep_both).
  split; [reflexivity|].
  intros v. rewrite filter_In, andb_true_iff, Z.ltb_lt, Z.eqb_eq. reflexivity.
Qed.

Lemma filters_in_series_witness :
  let s2 := mkFilter [] false FReturned [ChSend 3; ChSend 12; ChClose] in
  sent (f_output s2)
    = List.filter (fun v => (0 <? v) && (Z.rem v 3 =? 0)) [-3; 3; 0; 4; 12] /\
  (forall v : Z,
      In v (sent (f_output s2)) <->
      In v [-3; 3; 0; 4; 12] /\ 0 < v /\ Z.rem v 3 = 0).
Proof.
  apply (filters_in_series [-3; 3; 0; 4; 12]
           (filter_schedule negative_keep [-3; 3; 0; 4; 12])
           (filter_schedule special_keep [3; 0; 4; 12])
           (mkFilter [] false FReturned
              [ChSend 3; ChSend 0; ChSend 4; ChSend 12; ChClose]));
    reflexivity.
Defined.

(** ** The ring buffer over several drains and laps *)

(** Pushes that start at slot 0 and fit the array. *)
Lemma push_all_from_slot_0 (els : list Z) (r : RingIntBuffer) :
  ring_ok r -> Z.rem (pos r + 1) (size r) = 0 ->
  (0 < length els)%nat -> Z.of_nat (length els) <= size r ->
  push_all els r
    = Ok (mkRing (els ++ drop (length els) (array r))
                 (Z.of_nat (length els) - 1) (size r) false).
Proof.
  intros Hok Hnext Hsome Hfit. pose proof Hok as (Hmu & Hlen & Hs & Hp).
  destruct els as [|v l]; [simpl in Hsome; lia|].
  rewrite (push_all_chunk l v r 0%nat Hok Hnext) by (simpl in Hfit; lia).
  rewrite take_0, app_nil_l, Nat.add_0_l.
  f_equal. f_equal. simpl length. lia.
Qed.

Lemma Get_after_push_from_slot_0 (els : list Z) (r : RingIntBuffer) :
  ring_ok r -> (0 < length els)%nat -> Z.of_nat (length els) <= size r ->
  call Get (mkRing (els ++ drop (length els) (array r))
                   (Z.of_nat (length els) - 1) (size r) false)
    = Ok (Some els,
          mkRing (els ++ drop (length els) (array r)) (-1) (size r) false).
Proof.
  intros (Hmu & Hlen & Hs & Hp) Hsome Hfit.
  rewrite call_Get_nonempty.
  - unfold drained. cbn [array pos size].
    replace (Z.to_nat (Z.of_nat (length els) - 1 + 1)) with (length els) by lia.
    rewrite take_app_length. reflexivity.
  - unfold ring_ok. cbn [array pos size mu].
    rewrite length_app, length_drop. lia.
  - cbn [pos]. lia.
Qed.

(** X4.  On a buffer with nothing to hand out, fresh or drained, pushing
    up to [size] values and draining returns exactly these values in the
    order pushed, whatever older values the array still holds: those
    stay in the slots behind and are not returned. *)
Theorem push_then_Get_round_trip (r : RingIntBuffer) (els : list Z)
    (Hok : ring_ok r) (Hempty : pos r = -1)
    (Hsome : (0 < length els)%nat)
    (Hfit : Z.of_nat (length els) <= size r) :
  exists r1 : RingIntBuffer,
    push_all els r = Ok r1 /\
    call Get r1
      = Ok (Some els,
            mkRing (els ++ drop (length els) (array r)) (-1) (size r) false).
Proof.
  eexists. split.
  - apply push_all_from_slot_0; try assumption.
    rewrite Hempty. apply Z.rem_0_l. destruct Hok as (_ & _ & Hs & _). lia.
  - apply Get_after_push_from_slot_0; assumption.
Qed.

Lemma push_then_Get_round_trip_witness :
  exists r1 : RingIntBuffer,
    push_all [7; 8] (mkRing [1; 2; 3; 4] (-1) 4 false) = Ok r1 /\
    call Get r1
      = Ok (Some [7; 8],
            mkRing ([7; 8] ++ drop 2 [1; 2; 3; 4]) (-1) 4 false).
Proof.
  apply (push_then_Get_round_trip (mkRing [1; 2; 3; 4] (-1) 4 false) [7; 8]).
  - unfold ring_ok, int_max; simpl. lia.
  - reflexivity.
  - simpl. lia.
  - simpl. lia.
Defined.

Lemma push_all_lap (chunk : list Z) (r : RingIntBuffer) :
  ring_ok r -> Z.rem (pos r + 1) (size r) = 0 ->
  Z.of_nat (length chunk) = size r ->
  push_all chunk r = Ok (mkRing chunk (size r - 1) (size r) false).
Proof.
  intros Hok Hnext Hlen. pose proof Hok as (Hmu & Hl & Hs & Hp).
  destruct chunk as [|v l]; [simpl in Hlen; lia|].
  rewrite (push_all_chunk l v r 0%nat Hok Hnext) by (simpl in Hlen; lia).
  cbn [take app]. rewrite drop_ge by (simpl in Hlen; lia).
  rewrite app_nil_r. f_equal. f_equal. simpl in Hlen. lia.
Qed.

Lemma push_all_laps (q : nat) :
  forall (body : list Z) (r : RingIntBuffer),
    ring_ok r -> Z.rem (pos r + 1) (size r) = 0 ->
    length body = (q * length (array r))%nat ->
    exists r' : RingIntBuffer,
      push_all body r = Ok r' /\ ring_ok r' /\
      Z.rem (pos r' + 1) (size r') = 0 /\ size r' = size r.
Proof.
  induction q as [|q IH]; intros body r Hok Hnext Hlen.
  - destruct body; [|discriminate]. exists r. auto.
  - pose proof Hok as (Hmu & Hl & Hs & Hp).
    rewrite <- (take_drop (length (array r)) body), push_all_app.
    rewrite (push_all_lap (take (length (array r)) body) r Hok Hnext)
      by (rewrite length_take; lia).
    assert (Hok1 : ring_ok (mkRing (take (length (array r)) body)
                              (size r - 1) (size r) false)).
    { unfold ring_ok; cbn [array pos size mu]. rewrite length_take. lia. }
    destruct (IH (drop (length (array r)) body) _ Hok1) as (r' & H1 & H2 & H3 & H4).
    + cbn [pos size]. replace (size r - 1 + 1) with (size r) by lia.
      apply Z.rem_same. lia.
    + cbn [array]. rewrite length_drop, length_take. lia.
    + exists r'. auto.
Qed.

(** X5.  Any number of laps.  When [q * size + k] values are pushed into
    a fresh buffer, [0 < k <= size], the drain returns the last [k] of
    them, in the order pushed; all the values before are lost to it. *)
Theorem drain_after_laps (n : Z) (q : nat) (body rest : list Z)
    (Hn : 1 <= n <= int_max)
    (Hbody : Z.of_nat (length body) = Z.of_nat q * n)
    (Hrest : 0 < Z.of_nat (length rest) <= n) :
  exists r' : RingIntBuffer,
    fill_and_drain n (body ++ rest) = Ok (Some rest, r') /\
    pos r' = -1 /\ size r' = n /\
    take (length rest) (array r') = rest.
Proof.
  unfold fill_and_drain.
  destruct (new_ok n Hn) as (r0 & Hr0 & Hok0 & Hshape). rewrite Hr0.
  destruct (push_all_laps q body r0 Hok0) as (r1 & H1 & Hok1 & Hnext1 & Hsz1).
  { subst r0. cbn [pos size]. apply Z.rem_0_l. lia. }
  { subst r0. cbn [array]. rewrite length_replicate. nia. }
  assert (Hsize0 : size r0 = n) by (subst r0; reflexivity).
  rewrite push_all_app, H1.
  rewrite (push_all_from_slot_0 rest r1 Hok1 Hnext1) by lia.
  rewrite (Get_after_push_from_slot_0 rest r1 Hok1) by lia.
  eexists. split; [reflexivity|]. cbn [array pos size].
  split; [reflexivity|]. split; [congruence|]. apply take_app_length.
Qed.

Lemma drain_after_laps_witness :
  exists r' : RingIntBuffer,
    fill_and_drain 3 ([1; 2; 3; 4; 5; 6] ++ [7; 8]) = Ok (Some [7; 8], r') /\
    pos r' = -1 /\ size r' = 3 /\
    take (length [7; 8]) (array r') = [7; 8].
Proof.
  apply (drain_after_laps 3 2 [1; 2; 3; 4; 5; 6] [7; 8]).
  - unfold int_max. lia.
  - reflexivity.
  - simpl. lia.
Defined.

(** ** The mutex *)

(** X6.  In every state of a buffer between two calls, [Push] makes all
    its accesses to the struct with the mutex held, [Get] makes all its
    accesses after the first with the mutex held, and both have released
    the mutex when they return. *)
Theorem methods_hold_and_release_mutex (r : RingIntBuffer) (el : Z)
    (Hok : ring_ok r) :
  (exists (l : list access) (r' : RingIntBuffer),
      accesses (Push el) r = Ok l /\ all_locked l = true /\
      call (Push el) r = Ok (tt, r') /\ mu r' = false) /\
  (exists (l : list access) (o : option (list Z)) (r' : RingIntBuffer),
      accesses Get r = Ok (mkAccess Fpos Load false :: l) /\
      all_locked l = true /\
      call Get r = Ok (o, r') /\ mu r' = false).
Proof.
  split.
  - destruct (Push_accesses_locked el r Hok) as (l & Hl & Hall).
    exists l, (pushed el r). split; [assumption|]. split; [assumption|].
    split; [apply call_Push; assumption|reflexivity].
  - destruct Hok as (Hmu & Hlen & Hs & Hp).
    destruct (Z.lt_ge_cases (pos r) 0) as [Hneg|Hpos].
    + exists [], None, r.
      split; [|split; [reflexivity|split; [apply call_Get_empty; assumption|assumption]]].
      run_go. destruct (Z.ltb_spec (pos r) 0); [|lia]. simpl.
      rewrite Hmu. reflexivity.
    + eexists _, _, (drained r).
      split; [|split; [|split; [apply call_Get_nonempty;
                                 [unfold ring_ok; auto|assumption]|reflexivity]]].
      * run_go. destruct (Z.ltb_spec (pos r) 0); [lia|]. simpl.
        rewrite Hmu. simpl.
        rewrite (int_wrap_small (pos r + 1))
          by (unfold int_min, int_max in *; lia).
        destruct (Z.leb_spec 0 (pos r + 1)); [|lia].
        destruct (Z.leb_spec (pos r + 1) (Z.of_nat (length (array r)))); [|lia].
        simpl. reflexivity.
      * reflexivity.
Qed.

Lemma methods_hold_and_release_mutex_witness :
  (exists (l : list access) (r' : RingIntBuffer),
      accesses (Push 9) (mkRing [4; 5; 0] 1 3 false) = Ok l /\
      all_locked l = true /\
      call (Push 9) (mkRing [4; 5; 0] 1 3 false) = Ok (tt, r') /\
      mu r' = false) /\
  (exists (l : list access) (o : option (list Z)) (r' : RingIntBuffer),
      accesses Get (mkRing [4; 5; 0] 1 3 false)
        = Ok (mkAccess Fpos Load false :: l) /\
      all_locked l = true /\
      call Get (mkRing [4; 5; 0] 1 3 false) = Ok (o, r') /\ mu r' = false).
Proof.
  apply (methods_hold_and_release_mutex (mkRing [4; 5; 0] 1 3 false) 9).
  unfold ring_ok, int_max; simpl. lia.
Defined.

(** X7.  A push is never lost to the next drain: in every state of a
    buffer between two calls, [Push el] followed by [Get] returns a
    slice that is not nil, is not empty, and has [el] as its last
    element. *)
Theorem Push_then_Get_ends_with_pushed (r : RingIntBuffer) (el : Z)
    (Hok : ring_ok r) :
  exists (r1 r2 : RingIntBuffer) (front : list Z),
    call (Push el) r = Ok (tt, r1) /\
    call Get r1 = Ok (Some (front ++ [el]), r2) /\
    Z.of_nat (length front) = Z.rem (pos r + 1) (size r).
Proof.
  pose proof (rem_next r Hok) as Hq.
  pose proof (pushed_ok el r Hok) as Hok1.
  pose proof Hok as (Hmu & Hlen & Hs & Hp).
  exists (pushed el r), (drained (pushed el r)),
         (take (Z.to_nat (Z.rem (pos r + 1) (size r))) (array r)).
  split; [apply call_Push; assumption|]. split.
  - rewrite call_Get_nonempty by (assumption || (simpl; lia)).
    do 3 f_equal. unfold pushed. cbn [array pos].
    set (q := Z.to_nat (Z.rem (pos r + 1) (size r))).
    replace (Z.to_nat (Z.rem (pos r + 1) (size r) + 1)) with (S q)
      by (subst q; lia).
    rewrite insert_take_drop by (subst q; lia).
    rewrite take_app_ge by (rewrite length_take; lia).
    rewrite length_take.
    replace (S q - q `min` length (array r))%nat with 1%nat by lia.
    reflexivity.
  - rewrite length_take. lia.
Qed.

Lemma Push_then_Get_ends_with_pushed_witness :
  exists (r1 r2 : RingIntBuffer) (front : list Z),
    call (Push 9) (mkRing [4; 5; 0] 1 3 false) = Ok (tt, r1) /\
    call Get r1 = Ok (Some (front ++ [9]), r2) /\
    Z.of_nat (length front) = Z.rem (1 + 1) 3.
Proof.
  apply (Push_then_Get_ends_with_pushed (mkRing [4; 5; 0] 1 3 false) 9).
  unfold ring_ok, int_max; simpl. lia.
Defined.

(** ** The buffering stage: what it sends, and when *)

Lemma timer_silent_step (e : buffer_event) (s s' : buffer_state) :
  is_timer e = false ->
  drainer_idle (b_drainer s) = true -> sent (b_output s) = [] ->
  buffer_step e s = Next s' ->
  drainer_idle (b_drainer s') = true /\ sent (b_output s') = [].
Proof.
  intros He Hidle Hsent.
  destruct s as [inp dn buf wg la cpc dpc kpc out]; buffer_simpl.
  destruct e; try discriminate; unfold buffer_step; buffer_simpl.
  - (* BCancel *) destruct dn; [discriminate|]. intros [= <-]. auto.
  - (* BLaunch *)
    unfold buffer_launch; buffer_simpl.
    destruct la as [|[[]|w delta] la]; try discriminate;
      try (intros [= <-]; auto).
    unfold wg_add. destruct (wg + delta <? 0); [discriminate|].
    intros [= <-]. auto.
  - (* BCollectorInput *)
    destruct cpc; try discriminate.
    destruct inp; [|intros [= <-]; auto].
    unfold collector_return, wg_add; buffer_simpl.
    destruct (wg + -1 <? 0); [discriminate|]. intros [= <-]. auto.
  - (* BCollectorPush *)
    destruct cpc; try discriminate.
    destruct (call (Push data) buf) as [[[] r]|f]; [|discriminate].
    intros [= <-]. auto.
  - (* BCollectorDone *)
    destruct cpc; try discriminate. destruct dn; [|discriminate].
    unfold collector_return, wg_add; buffer_simpl.
    destruct (wg + -1 <? 0); [discriminate|]. intros [= <-]. auto.
  - (* BDrainerGet *) destruct dpc; discriminate.
  - (* BDrainerLoad *) destruct dpc; discriminate.
  - (* BDrainerSend *) destruct dpc; discriminate.
  - (* BDrainerDone *)
    destruct dpc; try discriminate. destruct dn; [|discriminate].
    unfold drainer_return, wg_add; buffer_simpl.
    destruct (wg + -1 <? 0); [discriminate|]. intros [= <-]. auto.
  - (* BCloserWait *)
    destruct kpc; try discriminate. destruct (wg =? 0); [|discriminate].
    intros [= <-]. auto.
  - (* BCloserClose *)
    destruct kpc; try discriminate. unfold chan_close.
    destruct (closed out); [discriminate|]. intros [= <-].
    buffer_simpl. rewrite sent_app, Hsent. auto.
Qed.

(** X8.  The buffering stage sends nothing before its timer fires: under
    every schedule in which the timer case of the drainer is never
    taken, however many values the collector has pushed, no value has
    been sent on the output. *)
Theorem nothing_sent_before_timer (i d : chan) (n : nat)
    (r : RingIntBuffer) (input : list Z)
    (sched : list buffer_event) (s : buffer_state)
    (Hsilent : timer_silent sched = true)
    (Hrun : run buffer_step sched
              (buffer_init (actions (bufferStageInt i d) n) r input)
            = Next s) :
  sent (b_output s) = [] /\ drainer_idle (b_drainer s) = true.
Proof.
  assert (Hgen : forall sched s0 s1,
             timer_silent sched = true ->
             drainer_idle (b_drainer s0) = true -> sent (b_output s0) = [] ->
             run buffer_step sched s0 = Next s1 ->
             drainer_idle (b_drainer s1) = true /\ sent (b_output s1) = []).
  { clear. induction sched as [|e sched IH]; intros s0 s1 Hs Hidle Hsent; simpl.
    - intros [= <-]. auto.
    - simpl in Hs. apply andb_true_iff in Hs as [He Hs].
      apply negb_true_iff in He.
      destruct (buffer_step e s0) as [s2| |f] eqn:Hstep; try discriminate.
      destruct (timer_silent_step e s0 s2 He Hidle Hsent Hstep) as [H1 H2].
      apply IH; assumption. }
  destruct (Hgen sched
              (buffer_init (actions (bufferStageInt i d) n) r input) s
              Hsilent eq_refl eq_refl Hrun).
  auto.
Qed.

Lemma nothing_sent_before_timer_witness :
  let s := mkBuffer [5] false (mkRing [3; 4; 0; 0; 0; 0; 0; 0; 0; 0] 1 10 false)
             2 [] CSelect DSelect KWait [] in
  sent (b_output s) = [] /\ drainer_idle (b_drainer s) = true.
Proof.
  apply (nothing_sent_before_timer 3%nat 1%nat 4%nat
           (mkRing (replicate 10 0) (-1) 10 false) [3; 4; 5]
           (launch_schedule ++ collect_schedule 2)).
  - reflexivity.
  - vm_compute. reflexivity.
Defined.

Lemma holds_input_only_init (acts : list action) (r : RingIntBuffer)
    (input : list Z) :
  -1 <= pos r < 0 -> holds_input_only input (buffer_init acts r input).
Proof.
  intros Hp. unfold holds_input_only, buffer_init; buffer_simpl.
  split; [exists []; reflexivity|]. split; [exact I|].
  split; [|constructor].
  exists 0%nat. split; [lia|]. split; [lia|]. split; [|exact I].
  intros i v Hi. lia.
Qed.

Lemma holds_input_only_step (acts : list action) (input0 : list Z)
    (e : buffer_event) (s s' : buffer_state) :
  buffer_inv acts s -> holds_input_only input0 s ->
  buffer_step e s = Next s' -> holds_input_only input0 s'.
Proof.
  intros (Hring & Hrange & _) ((pre & Hpre) & Hcol & (h & Hh & Hpos & Hslots & Hdr) & Hsent).
  destruct s as [inp dn buf wg la cpc dpc kpc out]; buffer_simpl.
  assert (Hmark : exists h0 : nat,
             (h0 <= length (array buf))%nat /\ pos buf < Z.of_nat h0 /\
             (forall (i : nat) (v : Z),
                 (i < h0)%nat -> array buf !! i = Some v -> In v input0) /\
             match dpc with
             | DRange _ n => (n <= h0)%nat
             | DSending _ n v => (n <= h0)%nat /\ In v input0
             | _ => True
             end) by (exists h; auto).
  destruct e; unfold buffer_step; buffer_simpl.
  - (* BCancel *)
    destruct dn; [discriminate|]. intros [= <-].
    unfold holds_input_only; buffer_simpl. eauto.
  - (* BLaunch *)
    unfold buffer_launch; buffer_simpl.
    destruct la as [|[[]|w delta] la]; try discriminate.
    + intros [= <-]. unfold holds_input_only; buffer_simpl.
      split; [eauto|]. split; [exact I|]. split; assumption.
    + intros [= <-]. unfold holds_input_only; buffer_simpl.
      split; [eauto|]. split; [assumption|]. split; [|assumption].
      exists h. auto.
    + intros [= <-]. unfold holds_input_only; buffer_simpl. eauto.
    + unfold wg_add. destruct (wg + delta <? 0); [discriminate|].
      intros [= <-]. unfold holds_input_only; buffer_simpl. eauto.
  - (* BCollectorInput *)
    destruct cpc; try discriminate.
    destruct inp as [|data rest].
    + unfold collector_return, wg_add; buffer_simpl.
      destruct (wg + -1 <? 0); [discriminate|]. intros [= <-].
      unfold holds_input_only; buffer_simpl. eauto.
    + intros [= <-]. unfold holds_input_only; buffer_simpl.
      split; [exists (pre ++ [data]); rewrite <- app_assoc; exact Hpre|].
      split; [rewrite Hpre; apply in_or_app; right; left; reflexivity|].
      split; assumption.
  - (* BCollectorPush *)
    destruct cpc; try discriminate.
    rewrite call_Push by assumption. intros [= <-].
    pose proof (rem_next buf Hring) as Hq.
    destruct Hring as (Hmu & Hlen & Hs & Hp).
    assert (Hle : Z.rem (pos buf + 1) (size buf) <= pos buf + 1)
      by (apply Z.rem_le; lia).
    set (q := Z.to_nat (Z.rem (pos buf + 1) (size buf))).
    unfold holds_input_only; buffer_simpl.
    split; [eauto|]. split; [exact I|]. split; [|assumption].
    exists (h `max` S q)%nat. unfold pushed. cbn [array pos size].
    rewrite length_insert. fold q.
    split; [subst q; lia|]. split; [subst q; lia|]. split.
    + intros i v Hi Hv.
      destruct (decide (i = q)) as [->|Hne].
      * rewrite list_lookup_insert_eq in Hv by (subst q; lia).
        injection Hv as <-. assumption.
      * rewrite list_lookup_insert_ne in Hv by congruence.
        apply (Hslots i v); [subst q; lia|assumption].
    + destruct dpc; try exact I.
      * lia.
      * destruct Hdr. split; [lia|assumption].
  - (* BCollectorDone *)
    destruct cpc; try discriminate. destruct dn; [|discriminate].
    unfold collector_return, wg_add; buffer_simpl.
    destruct (wg + -1 <? 0); [discriminate|]. intros [= <-].
    unfold holds_input_only; buffer_simpl. eauto.
  - (* BDrainerTimer *)
    destruct dpc; try discriminate. rewrite call_load_pos.
    destruct (pos buf <? 0); intros [= <-];
      unfold holds_input_only; buffer_simpl;
      (split; [eauto|]); (split; [assumption|]); (split; [|assumption]);
      exists h; auto.
  - (* BDrainerGet *)
    destruct dpc; try discriminate.
    rewrite call_Get_locked by assumption. intros [= <-].
    destruct Hring as (Hmu & Hlen & Hs & Hp).
    unfold holds_input_only; buffer_simpl.
    split; [eauto|]. split; [assumption|]. split; [|assumption].
    exists h. unfold drained. cbn [array pos size].
    split; [assumption|]. split; [lia|]. split; [assumption|].
    rewrite length_take. unfold range_from.
    destruct (0 <? Z.to_nat (pos buf + 1) `min` length (array buf))%nat;
      [lia|exact I].
  - (* BDrainerLoad *)
    destruct dpc; try discriminate.
    destruct (array buf !! i) as [v|] eqn:Hv; [|discriminate].
    intros [= <-]. unfold holds_input_only; buffer_simpl.
    split; [eauto|]. split; [assumption|]. split; [|assumption].
    exists h. split; [assumption|]. split; [assumption|].
    split; [assumption|]. split; [assumption|].
    destruct Hrange as [Hi _]. apply (Hslots i v); [lia|assumption].
  - (* BDrainerSend *)
    destruct dpc; try discriminate.
    unfold chan_send. destruct (closed out); [discriminate|].
    intros [= <-]. unfold holds_input_only; buffer_simpl.
    destruct Hdr as [Hn Hv].
    split; [eauto|]. split; [assumption|]. split.
    + exists h. split; [assumption|]. split; [assumption|].
      split; [assumption|]. unfold range_from.
      destruct (S i <? n)%nat; [assumption|exact I].
    + rewrite sent_app. apply Forall_app. split; [assumption|].
      simpl. constructor; [assumption|constructor].
  - (* BDrainerDone *)
    destruct dpc; try discriminate; (destruct dn; [|discriminate]);
      unfold drainer_return, wg_add; buffer_simpl;
      (destruct (wg + -1 <? 0); [discriminate|]); intros [= <-];
      unfold holds_input_only; buffer_simpl;
      (split; [eauto|]); (split; [assumption|]); (split; [|assumption]);
      exists h; auto.
  - (* BCloserWait *)
    destruct kpc; try discriminate. destruct (wg =? 0); [|discriminate].
    intros [= <-]. unfold holds_input_only; buffer_simpl. eauto.
  - (* BCloserClose *)
    destruct kpc; try discriminate. unfold chan_close.
    destruct (closed out); [discriminate|]. intros [= <-].
    unfold holds_input_only; buffer_simpl.
    split; [eauto|]. split; [assumption|]. split; [eauto|].
    rewrite sent_app. simpl. rewrite app_nil_r. assumption.
Qed.

(** X9.  The buffering stage sends only what it received: under every
    schedule, every value sent on the output is a value of the input.
    The zeros the array is made with, and whatever else the array held,
    never come out. *)
Theorem buffer_stage_sends_only_input (i d : chan) (n : nat)
    (r : RingIntBuffer) (input : list Z)
    (sched : list buffer_event) (s : buffer_state)
    (Hnew : NewRingIntBuffer bufferSize = Ok r)
    (Hrun : run buffer_step sched
              (buffer_init (actions (bufferStageInt i d) n) r input)
            = Next s) :
  Forall (fun v => In v input) (sent (b_output s)).
Proof.
  pose proof (bufferStageInt_program i d n) as Hprog.
  pose proof (new_buffer_ok r Hnew) as Hok.
  assert (Hboth : buffer_inv (actions (bufferStageInt i d) n) s /\
                  holds_input_only input s).
  { revert Hrun.
    apply (run_keeps buffer_step
             (fun s => buffer_inv (actions (bufferStageInt i d) n) s /\
                       holds_input_only input s)).
    - intros e s1 s2 [H1 H2] Hstep. split.
      + eapply buffer_step_keeps; eassumption.
      + eapply holds_input_only_step; eassumption.
    - split; [apply buffer_inv_init; assumption|].
      apply holds_input_only_init.
      unfold NewRingIntBuffer in Hnew. simpl in Hnew.
      injection Hnew as <-. simpl. lia. }
  destruct Hboth as [_ (_ & _ & _ & Hsent)]. exact Hsent.
Qed.

Lemma buffer_stage_sends_only_input_witness :
  Forall (fun v => In v [1; 2]) (sent [ChSend 2; ChSend 2]).
Proof.
  apply (buffer_stage_sends_only_input 3%nat 1%nat 4%nat
           (mkRing (replicate 10 0) (-1) 10 false) [1; 2]
           (launch_schedule ++
            [BCollectorInput; BCollectorPush; BDrainerTimer; BDrainerGet;
             BCollectorInput; BCollectorPush; BDrainerLoad; BDrainerSend] ++
            emit_schedule 1)
           (mkBuffer [] false (mkRing [2; 0; 0; 0; 0; 0; 0; 0; 0; 0] (-1) 10 false)
              2 [] CSelect DSelect KWait [ChSend 2; ChSend 2])).
  - reflexivity.
  - vm_compute. reflexivity.
Defined.

(** X10.  Overflow before the drain.  When the collector has pushed
    [q * 10 + k] values, [0 < k <= 10], before the timer fires, the stage
    has sent nothing so far, and the firing that follows sends the last
    [k] of them in the order received; the values before never come
    out. *)
Theorem buffer_stage_overflowing_batch (i d : chan) (n : nat)
    (r : RingIntBuffer) (q : nat) (body rest : list Z)
    (Hnew : NewRingIntBuffer bufferSize = Ok r)
    (Hbody : length body = (q * 10)%nat)
    (Hrest : (0 < length rest <= 10)%nat) :
  exists (held : RingIntBuffer) (s : buffer_state),
    run buffer_step
        (launch_schedule ++ collect_schedule (length (body ++ rest)))
        (buffer_init (actions (bufferStageInt i d) n) r (body ++ rest))
      = Next (mkBuffer [] false held 2 [] CSelect DSelect KWait []) /\
    run buffer_step (emit_schedule (length rest))
        (mkBuffer [] false held 2 [] CSelect DSelect KWait [])
      = Next s /\
    b_output s = map ChSend rest /\
    pos (b_buffer s) = -1 /\
    b_drainer s = DSelect.
Proof.
  pose proof (bufferStageInt_program i d n) as Hprog.
  pose proof (new_buffer_ok r Hnew) as Hok.
  assert (Hr : r = mkRing (replicate 10 0) (-1) bufferSize false).
  { unfold NewRingIntBuffer in Hnew. simpl in Hnew.
    injection Hnew as <-. reflexivity. }
  destruct (push_all_laps q body r Hok) as (r1 & H1 & Hok1 & Hnext1 & Hsz1).
  { subst r. reflexivity. }
  { subst r. cbn [array]. rewrite length_replicate. assumption. }
  assert (Hsz : size r1 = 10) by (rewrite Hsz1; subst r; reflexivity).
  set (held := mkRing (rest ++ drop (length rest) (array r1))
                      (Z.of_nat (length rest) - 1) (size r1) false).
  assert (Hpush : push_all (body ++ rest) r = Ok held).
  { rewrite push_all_app, H1.
    apply push_all_from_slot_0; try assumption; lia. }
  assert (Hheld : ring_ok held).
  { destruct Hok1 as (Hmu & Hlen & Hs & Hp).
    unfold ring_ok, held. cbn [array pos size mu].
    rewrite length_app, length_drop. lia. }
  exists held. eexists. split; [|split].
  - rewrite run_app, (launch_run _ r (body ++ rest) Hprog).
    rewrite <- (app_nil_r (body ++ rest)) at 2.
    rewrite collect_run, Hpush. reflexivity.
  - pose proof (emit_run [] false held 2 [] CSelect KWait [] Hheld) as Hemit.
    assert (Hn : Z.to_nat (pos held + 1) = length rest)
      by (unfold held; cbn [pos]; lia).
    rewrite Hn in Hemit.
    change (map ChSend []) with (@nil chan_op) in Hemit.
    apply Hemit. unfold held; cbn [pos]. lia.
  - buffer_simpl. split; [|split; reflexivity].
    change (array held) with (rest ++ drop (length rest) (array r1)).
    rewrite app_nil_l, take_app_length. reflexivity.
Qed.

Lemma buffer_stage_overflowing_batch_witness :
  exists (held : RingIntBuffer) (s : buffer_state),
    run buffer_step
        (launch_schedule ++
         collect_schedule (length ([1; 2; 3; 4; 5; 6; 7; 8; 9; 10] ++ [11; 12])))
        (buffer_init (actions (bufferStageInt 3%nat 1%nat) 4%nat)
           (mkRing (replicate 10 0) (-1) 10 false)
           ([1; 2; 3; 4; 5; 6; 7; 8; 9; 10] ++ [11; 12]))
      = Next (mkBuffer [] false held 2 [] CSelect DSelect KWait []) /\
    run buffer_step (emit_schedule (length [11; 12]))
        (mkBuffer [] false held 2 [] CSelect DSelect KWait [])
      = Next s /\
    b_output s = map ChSend [11; 12] /\
    pos (b_buffer s) = -1 /\
    b_drainer s = DSelect.
Proof.
  apply (buffer_stage_overflowing_batch 3%nat 1%nat 4%nat
           (mkRing (replicate 10 0) (-1) 10 false) 1
           [1; 2; 3; 4; 5; 6; 7; 8; 9; 10] [11; 12]).
  - reflexivity.
  - reflexivity.
  - simpl. lia.
Defined.

(** ** The buffering stage after the cancellation *)

Section Shutdown.
Variable acts : list action.
Hypothesis Hprog : buffer_program acts.

Lemma shutdown_progress (s : buffer_state) :
  buffer_inv acts s -> b_done s = true -> b_closer s <> KReturned ->
  exists (e : buffer_event) (s' : buffer_state),
    shutdown_event s = Some e /\ buffer_step e s = Next s' /\
    (shutdown_steps s' < shutdown_steps s)%nat /\
    b_done s' = true /\ sent (b_output s') = sent (b_output s).
Proof.
  intros (Hring & Hrange & (vs & Hout) & Hpast & k & Hk & Hlaunch & Hc & Hd & Hkk & Hwg) Hdone Hlive.
  destruct s as [inp dn buf wg la cpc dpc kpc out]; buffer_simpl. subst dn.
  destruct Hprog as (ci & cd & co & cb & cw & Hacts).
  unfold shutdown_event, shutdown_steps, buffer_step, buffer_launch;
    buffer_simpl.
  rewrite Hlaunch, Hacts. unfold adds in Hwg.
  destruct k as [|[|[|[|[|[|k]]]]]]; simpl drop; simpl length; try lia.
  1-5: destruct cpc; try discriminate; destruct dpc; try discriminate;
       destruct kpc; try discriminate; simpl in Hwg; subst wg;
       unfold wg_add; simpl;
       eexists _, _; (split; [reflexivity|]); (split; [reflexivity|]);
       buffer_simpl; simpl; (split; [lia|]); split; reflexivity.
  (* the stage function has returned *)
  simpl in Hc, Hd, Hkk, Hwg.
  destruct cpc; try discriminate.
  - (* collector at its select *)
    unfold collector_return, wg_add; buffer_simpl.
    destruct (Z.ltb_spec (wg + -1) 0);
      [exfalso; destruct dpc; buffer_simpl; lia|].
    eexists _, _. split; [reflexivity|]. split; [reflexivity|].
    buffer_simpl. simpl. split; [lia|]. split; reflexivity.
  - (* collector before its push *)
    rewrite call_Push by assumption.
    eexists _, _. split; [reflexivity|]. split; [reflexivity|].
    buffer_simpl. simpl. split; [lia|]. split; reflexivity.
  - (* collector returned *)
    destruct dpc; try discriminate.
    + (* drainer at its outer select *)
      unfold drainer_return, wg_add; buffer_simpl.
      destruct (Z.ltb_spec (wg + -1) 0); [exfalso; buffer_simpl; lia|].
      eexists _, _. split; [reflexivity|]. split; [reflexivity|].
      buffer_simpl. simpl. split; [lia|]. split; reflexivity.
    + (* drainer in Get *)
      rewrite call_Get_locked by assumption.
      eexists _, _. split; [reflexivity|]. split; [reflexivity|].
      buffer_simpl. unfold range_from.
      destruct (0 <? length (take (Z.to_nat (pos buf + 1)) (array buf)))%nat;
        simpl; (split; [lia|]); split; reflexivity.
    + (* drainer at the head of range *)
      destruct Hring as (Hmu & Hlen & Hs & Hp). destruct Hrange as [Hi Hn].
      destruct (lookup_lt_is_Some_2 (array buf) i) as [v Hv]; [lia|].
      rewrite Hv.
      eexists _, _. split; [reflexivity|]. split; [reflexivity|].
      buffer_simpl. simpl. split; [lia|]. split; reflexivity.
    + (* drainer at its inner select *)
      unfold drainer_return, wg_add; buffer_simpl.
      destruct (Z.ltb_spec (wg + -1) 0); [exfalso; buffer_simpl; lia|].
      eexists _, _. split; [reflexivity|]. split; [reflexivity|].
      buffer_simpl. simpl. split; [lia|]. split; reflexivity.
    + (* both workers returned *)
      destruct kpc; try discriminate; try congruence.
      * buffer_simpl. assert (wg = 0) as -> by lia. simpl.
        eexists _, _. split; [reflexivity|]. split; [reflexivity|].
        buffer_simpl. simpl. split; [lia|]. split; reflexivity.
      * unfold chan_close. rewrite Hout, closed_no_mark by discriminate.
        eexists _, _. split; [reflexivity|]. split; [reflexivity|].
        buffer_simpl. simpl. split; [lia|]. split; [reflexivity|].
        rewrite sent_app. simpl. apply app_nil_r.
Qed.

Lemma shutdown_finished (s : buffer_state) :
  buffer_inv acts s -> b_closer s = KReturned ->
  shutdown_event s = None /\ b_collector s = CReturned /\
  b_drainer s = DReturned /\ closed (b_output s) = true.
Proof.
  intros Hinv Hk.
  assert (Hcl : closed (b_output s) = true).
  { destruct Hinv as (_ & _ & (vs & Hout) & _).
    rewrite Hout, Hk, closed_app. simpl. apply orb_true_r. }
  destruct (buffer_closed_quiet acts Hprog s Hinv Hcl) as (_ & Hc & Hd & Hl).
  unfold shutdown_event. rewrite Hl, Hc, Hd, Hk. auto.
Qed.

Lemma shutdown_run (fuel : nat) :
  forall s : buffer_state,
    buffer_inv acts s -> b_done s = true ->
    (shutdown_steps s <= fuel)%nat ->
    exists s' : buffer_state,
      run buffer_step (shutdown_schedule fuel s) s = Next s' /\
      b_closer s' = KReturned /\ buffer_inv acts s' /\
      sent (b_output s') = sent (b_output s).
Proof.
  induction fuel as [|fuel IH]; intros s Hinv Hdone Hfuel.
  - exists s. split; [reflexivity|]. split; [|auto].
    destruct (b_closer s) eqn:Hk; try reflexivity;
      unfold shutdown_steps in Hfuel; rewrite Hk in Hfuel; lia.
  - destruct (b_closer s) eqn:Hk.
    4: { destruct (shutdown_finished s Hinv Hk) as (Hnone & _).
         exists s. simpl. rewrite Hnone. auto. }
    all: destruct (shutdown_progress s Hinv Hdone) as (e & s1 & He & Hstep & Hm & Hd1 & Hs1);
           [congruence|];
         pose proof (buffer_step_keeps acts Hprog e s s1 Hinv Hstep) as Hinv1;
         destruct (IH s1 Hinv1 Hd1) as (s' & Hrun & Hk' & Hinv' & Hs'); [lia|];
         exists s'; simpl; rewrite He, Hstep; simpl; rewrite Hstep;
         split; [assumption|]; split; [assumption|]; split; [assumption|];
         congruence.
Qed.

Lemma shutdown_steps_bound (s : buffer_state) :
  buffer_inv acts s -> (shutdown_steps s <= 9)%nat.
Proof.
  intros (_ & _ & _ & _ & k & Hk & Hlaunch & Hc & Hd & Hkk & _).
  destruct Hprog as (i & d & o & b & w & Hacts).
  unfold shutdown_steps. rewrite Hlaunch, Hacts.
  destruct k as [|[|[|[|[|[|k]]]]]]; simpl drop; simpl length; try lia;
    destruct (b_collector s); try discriminate;
    destruct (b_drainer s); try discriminate;
    destruct (b_closer s); try discriminate; lia.
Qed.

Lemma shutdown_schedule_length (fuel : nat) :
  forall s : buffer_state, (length (shutdown_schedule fuel s) <= fuel)%nat.
Proof.
  induction fuel as [|fuel IH]; intros s; simpl; [lia|].
  destruct (shutdown_event s) as [e|]; simpl; [|lia].
  destruct (buffer_step e s) as [s'| |f]; simpl; try lia.
  pose proof (IH s'). lia.
Qed.
End Shutdown.

(** X11.  After the cancellation the stage can always come to its end:
    from every state it reaches with [done] closed, at most nine further
    steps, none of them a send, bring the collector, the drainer and the
    closer to their return with the output closed. *)
Theorem cancellation_can_complete (i d : chan) (n : nat)
    (r : RingIntBuffer) (input : list Z)
    (sched : list buffer_event) (s : buffer_state)
    (Hnew : NewRingIntBuffer bufferSize = Ok r)
    (Hrun : run buffer_step sched
              (buffer_init (actions (bufferStageInt i d) n) r input)
            = Next s)
    (Hdone : b_done s = true) :
  exists s' : buffer_state,
    run buffer_step (shutdown_schedule 9 s) s = Next s' /\
    (length (shutdown_schedule 9 s) <= 9)%nat /\
    b_collector s' = CReturned /\ b_drainer s' = DReturned /\
    b_closer s' = KReturned /\
    closed (b_output s') = true /\
    sent (b_output s') = sent (b_output s).
Proof.
  pose proof (bufferStageInt_program i d n) as Hprog.
  assert (Hinv : buffer_inv (actions (bufferStageInt i d) n) s).
  { revert Hrun. apply run_keeps.
    - intros e s1 s2. apply buffer_step_keeps. assumption.
    - apply buffer_inv_init, new_buffer_ok. assumption. }
  destruct (shutdown_run _ Hprog 9 s Hinv Hdone
              (shutdown_steps_bound _ Hprog s Hinv))
    as (s' & Hrun' & Hk & Hinv' & Hsent).
  destruct (shutdown_finished _ Hprog s' Hinv' Hk) as (_ & Hc & Hd & Hcl).
  exists s'. split; [assumption|].
  split; [apply shutdown_schedule_length|]. auto 10.
Qed.

Lemma cancellation_can_complete_witness :
  let s := mkBuffer [6] true (mkRing [3; 0; 0; 0; 0; 0; 0; 0; 0; 0] (-1) 10 false)
             2 [] CSelect (DRange 0 1) KWait [] in
  exists s' : buffer_state,
    run buffer_step (shutdown_schedule 9 s) s = Next s' /\
    (length (shutdown_schedule 9 s) <= 9)%nat /\
    b_collector s' = CReturned /\ b_drainer s' = DReturned /\
    b_closer s' = KReturned /\
    closed (b_output s') = true /\
    sent (b_output s') = sent (b_output s).
Proof.
  apply (cancellation_can_complete 3%nat 1%nat 4%nat
           (mkRing (replicate 10 0) (-1) 10 false) [3; 6]
           (launch_schedule ++
            [BCollectorInput; BCollectorPush; BDrainerTimer; BDrainerGet;
             BCancel])).
  - reflexivity.
  - vm_compute. reflexivity.
  - reflexivity.
Defined.

(** ** The consumer *)

Lemma consumer_step_keeps (input0 : list Z) (e : consumer_event)
    (s s' : consumer_state) :
  consumer_inv input0 s -> consumer_step e s = Next s' ->
  consumer_inv input0 s'.
Proof.
  intros [Hlog Hret]. destruct s as [inp dn ret lg]; simpl in *.
  destruct e; unfold consumer_step; simpl.
  - destruct dn; [discriminate|]. intros [= <-]. split; simpl; [assumption|].
    discriminate.
  - destruct ret; [discriminate|]. destruct inp as [|data rest].
    + intros [= <-]. split; simpl; auto.
    + intros [= <-]. split; simpl; [|discriminate].
      rewrite <- app_assoc. assumption.
  - destruct ret; [discriminate|]. destruct dn; [|discriminate].
    intros [= <-]. split; simpl; [assumption|discriminate].
Qed.

Lemma consumer_schedule_run (input : list Z) :
  forall lg : list Z,
    run consumer_step (consumer_schedule input) (mkConsumer input false false lg)
    = Next (mkConsumer [] false true (lg ++ input)).
Proof.
  induction input as [|data rest IH]; intros lg.
  - simpl. rewrite app_nil_r. reflexivity.
  - change (consumer_schedule (data :: rest))
      with (CoTakeInput :: consumer_schedule rest).
    cbn [run]. unfold consumer_step at 1.
    cbn [c_returned c_input c_done c_log].
    rewrite IH, <- app_assoc. reflexivity.
Qed.

(** X12.  The consumer reports the values in the order they arrive, each
    once: under every schedule what it has reported is an initial part
    of what comes on its channel, and all of it once it has returned
    with [done] open; such a run exists for every input.  With [done]
    closed it can return at once, reporting nothing more. *)
Theorem consumer_reports_in_order (input : list Z)
    (sched : list consumer_event) :
  run consumer_step (consumer_schedule input) (consumer_init input)
    = Next (mkConsumer [] false true input) /\
  (forall s : consumer_state,
      run consumer_step sched (consumer_init input) = Next s ->
      c_log s `prefix_of` input /\
      (c_returned s = true -> c_done s = false -> c_log s = input) /\
      (c_returned s = false -> c_done s = true ->
       consumer_step CoTakeDone s
         = Next (mkConsumer (c_input s) true true (c_log s)))).
Proof.
  split; [apply (consumer_schedule_run input [])|].
  intros s Hrun.
  assert (Hinv : consumer_inv input s).
  { revert Hrun. apply run_keeps.
    - intros e s1 s2. apply consumer_step_keeps.
    - split; [reflexivity|discriminate]. }
  destruct Hinv as [Hlog Hret]. split; [|split].
  - exists (c_input s). symmetry. exact Hlog.
  - intros H1 H2. rewrite (Hret H1 H2), app_nil_r in Hlog. exact Hlog.
  - intros H1 H2. unfold consumer_step. rewrite H1, H2. reflexivity.
Qed.

Lemma consumer_reports_in_order_witness :
  let s := mkConsumer [9; 12] true false [3; 6] in
  c_log s `prefix_of` [3; 6; 9; 12] /\
  (c_returned s = true -> c_done s = false -> c_log s = [3; 6; 9; 12]) /\
  (c_returned s = false -> c_done s = true ->
   consumer_step CoTakeDone s
     = Next (mkConsumer (c_input s) true true (c_log s))).
Proof.
  apply (proj2 (consumer_reports_in_order [3; 6; 9; 12]
                  [CoTakeInput; CoCancel; CoTakeInput])).
  reflexivity.
Defined.

(** ** The goroutine of [dataSource] *)

Section SourceFacts.
Variable is_exit : string -> bool.
Variable Atoi : string -> option Z.

Lemma source_loop_sent (texts : list string) :
  source_sent (fst (source_loop is_exit Atoi texts))
  = integers Atoi (before_exit is_exit texts).
Proof.
  induction texts as [|data rest IH]; [reflexivity|]. simpl.
  destruct (is_exit data); [reflexivity|]. simpl.
  destruct (Atoi data); simpl; [f_equal|]; exact IH.
Qed.

Lemma source_loop_returned (texts : list string) :
  snd (source_loop is_exit Atoi texts) = existsb is_exit texts.
Proof.
  induction texts as [|data rest IH]; [reflexivity|]. simpl.
  destruct (is_exit data); [reflexivity|]. simpl.
  destruct (Atoi data); exact IH.
Qed.

Lemma source_loop_channels (texts : list string) :
  List.filter is_channel_effect (fst (source_loop is_exit Atoi texts))
  = map SrcSend (integers Atoi (before_exit is_exit texts)) ++
    (if snd (source_loop is_exit Atoi texts) then [SrcCloseC] else []).
Proof.
  induction texts as [|data rest IH]; [reflexivity|]. simpl.
  destruct (is_exit data); [reflexivity|]. simpl.
  destruct (Atoi data); simpl; [f_equal|]; exact IH.
Qed.

Lemma source_loop_stops (texts more : list string) :
  snd (source_loop is_exit Atoi texts) = true ->
  source_loop is_exit Atoi (texts ++ more) = source_loop is_exit Atoi texts.
Proof.
  induction texts as [|data rest IH]; [discriminate|]. simpl.
  destruct (is_exit data); [reflexivity|].
  destruct (Atoi data); simpl; intros H; rewrite (IH H); reflexivity.
Qed.
End SourceFacts.

(** X13.  The source goroutine, on the texts its scanner hands out.  It
    sends on [c] the integers among the texts before the first one that
    says exit, in order, passing over the texts that are no integers.
    It returns exactly when some text says exit; then it has closed [c]
    after the last send and [done] after [c], and no later text changes
    anything.  As long as no text says exit it closes neither
    channel. *)
Theorem source_sends_integers_until_exit (is_exit : string -> bool)
    (Atoi : string -> option Z) (texts : list string) :
  let effects := fst (source_goroutine is_exit Atoi texts) in
  let returned := snd (source_goroutine is_exit Atoi texts) in
  let sent := integers Atoi (before_exit is_exit texts) in
  source_sent effects = sent /\
  returned = existsb is_exit texts /\
  (returned = true ->
   List.filter is_channel_effect effects
     = map SrcSend sent ++ [SrcCloseC; SrcCloseDone] /\
   forall more : list string,
     source_goroutine is_exit Atoi (texts ++ more)
     = source_goroutine is_exit Atoi texts) /\
  (returned = false ->
   List.filter is_channel_effect effects = map SrcSend sent).
Proof.
  cbv zeta. unfold source_goroutine. cbn [fst snd].
  split; [|split; [|split]].
  - cbn [source_sent].
    assert (Happ : forall t1 t2,
               source_sent (t1 ++ t2) = source_sent t1 ++ source_sent t2).
    { induction t1 as [|[m|v| |] t1 IH]; intros t2; simpl; rewrite ?IH;
        reflexivity. }
    rewrite Happ, source_loop_sent.
    destruct (snd (source_loop is_exit Atoi texts)); simpl;
      apply app_nil_r.
  - apply source_loop_returned.
  - intros Hret. split.
    + cbn [List.filter is_channel_effect]. rewrite List.filter_app.
      rewrite source_loop_channels, Hret. simpl.
      rewrite <- app_assoc. reflexivity.
    + intros more. rewrite (source_loop_stops _ _ texts more Hret).
      reflexivity.
  - intros Hret. cbn [List.filter is_channel_effect]. rewrite List.filter_app.
    rewrite source_loop_channels, Hret. simpl. rewrite !app_nil_r.
    reflexivity.
Qed.

Lemma source_sends_integers_until_exit_witness :
  let is_exit := fun data : string => String.eqb data "EXIT" in
  let Atoi := fun data : string =>
                if String.eqb data "3" then Some 3
                else if String.eqb data "-5" then Some (-5) else None in
  let texts := ["3"; "three"; "-5"; "EXIT"; "3"]%string in
  List.filter is_channel_effect (fst (source_goroutine is_exit Atoi texts))
    = map SrcSend (integers Atoi (before_exit is_exit texts)) ++
      [SrcCloseC; SrcCloseDone] /\
  forall more : list string,
    source_goroutine is_exit Atoi (texts ++ more)
    = source_goroutine is_exit Atoi texts.
Proof.
  cbv zeta.
  apply (proj1 (proj2 (proj2
    (source_sends_integers_until_exit
       (fun data : string => String.eqb data "EXIT")
       (fun data : string =>
          if String.eqb data "3" then Some 3
          else if String.eqb data "-5" then Some (-5) else None)
       ["3"; "three"; "-5"; "EXIT"; "3"]%string)))).
  reflexivity.
Defined.

(** ** The wiring of [main] *)

(** [main], begun at any allocation counter, starts six
    goroutines: the reader of the source, the worker of each filter, and
    the collector, drainer and closer of the buffering stage.  The
    negative filter reads the channel of the source, every later stage
    reads the channel the stage before writes, all of them watch the
    [done] channel of the source, and the consumer is handed the channel
    the drainer writes and the closer closes. *)
Lemma main_wiring_chain (n : nat) :
  let c := n in
  let done := S n in
  let out1 := S (S n) in
  let out2 := S (S (S n)) in
  let out3 := S (S (S (S n))) in
  let buffer := S (S (S (S (S n)))) in
  let wg := S (S (S (S (S (S n))))) in
  main_wiring n =
    (out3, S wg,
     [ActGo (SourceReader c done);
      ActGo (FilterWorker negative_keep c done out1);
      ActGo (FilterWorker special_keep out1 done out2);
      ActWgAdd wg 1; ActGo (BufferCollector out2 done buffer wg);
      ActWgAdd wg 1; ActGo (BufferDrainer done out3 buffer wg);
      ActGo (BufferCloser wg out3)]).
Proof. reflexivity. Qed.

(** ** More on the early test of [Get] and on the shared slice *)

(** X14.  With pushes as the only calls that overtake it, the test
    [Get] makes before it locks stays valid: a [Get] that found
    [pos >= 0], and goes on only after any number of pushes, returns
    what a [Get] begun after these pushes returns, and that is never
    nil. *)
Theorem Get_test_survives_pushes (els : list Z) (r r' : RingIntBuffer)
    (Hok : ring_ok r) (Hpos : 0 <= pos r)
    (Hpush : push_all els r = Ok r') :
  call Get_locked r' = call Get r' /\
  call Get r'
    = Ok (Some (take (Z.to_nat (pos r' + 1)) (array r')), drained r') /\
  0 <= pos r'.
Proof.
  destruct (push_all_ok els r Hok) as (r1 & H1 & Hok1 & Hpos1).
  rewrite H1 in Hpush. injection Hpush as <-.
  split; [apply (Get_test_stable els r r1); assumption|].
  split; [apply call_Get_nonempty; auto|auto].
Qed.

Lemma Get_test_survives_pushes_witness :
  call Get_locked (mkRing [4; 5; 6] 2 3 false)
    = call Get (mkRing [4; 5; 6] 2 3 false) /\
  call Get (mkRing [4; 5; 6] 2 3 false)
    = Ok (Some (take (Z.to_nat (2 + 1)) [4; 5; 6]),
          drained (mkRing [4; 5; 6] 2 3 false)) /\
  0 <= 2.
Proof.
  apply (Get_test_survives_pushes [5; 6] (mkRing [4; 0; 0] 0 3 false)).
  - unfold ring_ok, int_max; simpl. lia.
  - simpl. lia.
  - reflexivity.
Defined.

(** X15.  The slice [Get] returns is the array of the buffer.  When a
    batch [a :: rest] that fits the buffer has been pushed, the timer
    has fired and [Get] has returned the slice holding it, and the
    collector then pushes one more value [b] before the drainer reads
    the first element, the drainer sends [b] followed by [rest]: [a] is
    never sent, and [b] stays in the buffer for the next drain. *)
Theorem push_between_Get_and_send (acts : list action) (r : RingIntBuffer)
    (a b : Z) (rest : list Z)
    (Hprog : buffer_program acts)
    (Hnew : NewRingIntBuffer bufferSize = Ok r)
    (Hfit : Z.of_nat (length (a :: rest)) <= bufferSize) :
  run buffer_step
      (launch_schedule ++ collect_schedule (length (a :: rest)) ++
       [BDrainerTimer; BDrainerGet] ++ collect_schedule 1 ++
       concat (replicate (length (a :: rest)) [BDrainerLoad; BDrainerSend]))
      (buffer_init acts r ((a :: rest) ++ [b]))
  = Next (mkBuffer [] false
            (mkRing (b :: rest ++ drop (length (a :: rest)) (replicate 10 0))
                    0 bufferSize false)
            2 [] CSelect DSelect KWait (map ChSend (b :: rest))).
Proof.
  assert (Hr : r = mkRing (replicate 10 0) (-1) bufferSize false).
  { unfold NewRingIntBuffer in Hnew. simpl in Hnew.
    injection Hnew as <-. reflexivity. }
  pose proof (new_buffer_ok r Hnew) as Hok.
  set (items := a :: rest) in *.
  set (held := mkRing (items ++ drop (length items) (replicate 10 0))
                      (Z.of_nat (length items) - 1) bufferSize false).
  assert (Hlen : (0 < length items)%nat) by (unfold items; simpl; lia).
  assert (Hpush : push_all items r = Ok held).
  { rewrite push_all_from_slot_0; try assumption.
    - subst r. reflexivity.
    - subst r. reflexivity.
    - subst r. exact Hfit. }
  assert (Hheld : ring_ok held).
  { unfold ring_ok, held. cbn [array pos size mu].
    rewrite length_app, length_drop, length_replicate.
    unfold bufferSize, int_max in *. lia. }
  assert (Hdr : ring_ok (drained held)).
  { unfold ring_ok, drained, held in *. cbn [array pos size mu] in *. lia. }
  rewrite run_app, (launch_run acts r _ Hprog).
  rewrite run_app, collect_run, Hpush.
  change ([BDrainerTimer; BDrainerGet] ++ ?l)
    with (BDrainerTimer :: BDrainerGet :: l).
  cbn [run]. unfold buffer_step at 1. buffer_simpl.
  rewrite call_load_pos.
  destruct (Z.ltb_spec (pos held) 0) as [Hneg|_];
    [unfold held in Hneg; cbn [pos] in Hneg; lia|].
  unfold buffer_step at 1. buffer_simpl.
  rewrite call_Get_locked by assumption.
  unfold with_buffer, with_drainer. buffer_simpl.
  rewrite run_app.
  rewrite (collect_run false 2 [] _ KWait [] [b] [] (drained held)).
  cbn [push_all]. rewrite call_Push by assumption.
  assert (Hn : (Z.to_nat (pos held + 1) `min` length (array held))%nat
               = length items).
  { unfold held. cbn [array pos].
    rewrite length_app, length_drop, length_replicate.
    unfold bufferSize in Hfit. lia. }
  rewrite length_take, Hn.
  assert (Harr : array (pushed b (drained held))
                 = b :: rest ++ drop (length items) (replicate 10 0)).
  { reflexivity. }
  change (@nil chan_op) with (map ChSend []) at 1.
  rewrite (emit_loop_run [] false (pushed b (drained held)) 2 [] CSelect
             KWait (length items) 0 (length items) []);
    [|lia|rewrite Harr, length_cons, length_app, length_drop,
            length_replicate; unfold items, bufferSize in *;
          cbn [length] in *; lia].
  rewrite Harr, drop_0, app_nil_l.
  change (b :: rest ++ drop (length items) (replicate 10 0))
    with ((b :: rest) ++ drop (length items) (replicate 10 0)).
  replace (length items) with (length (b :: rest)) at 1 by reflexivity.
  rewrite take_app_length. reflexivity.
Qed.

Lemma push_between_Get_and_send_witness :
  run buffer_step
      (launch_schedule ++ collect_schedule (length [1; 2]) ++
       [BDrainerTimer; BDrainerGet] ++ collect_schedule 1 ++
       concat (replicate (length [1; 2]) [BDrainerLoad; BDrainerSend]))
      (buffer_init (actions (bufferStageInt 3%nat 1%nat) 4%nat)
         (mkRing (replicate 10 0) (-1) bufferSize false) ([1; 2] ++ [7]))
  = Next (mkBuffer [] false
            (mkRing (7 :: [2] ++ drop (length [1; 2]) (replicate 10 0))
                    0 bufferSize false)
            2 [] CSelect DSelect KWait (map ChSend (7 :: [2]))).
Proof.
  apply (push_between_Get_and_send
           (actions (bufferStageInt 3%nat 1%nat) 4%nat)
           (mkRing (replicate 10 0) (-1) bufferSize false) 1 7 [2]).
  - apply bufferStageInt_program.
  - reflexivity.
  - unfold bufferSize. simpl. lia.
Defined.

(** ** Progress of a filter stage *)

Lemma filter_schedule_run_from (keep : Z -> bool) (dn : bool)
    (input : list Z) :
  forall vs : list Z,
    run (filter_step keep) (filter_schedule keep input)
        (mkFilter input dn FSelect (map ChSend vs))
    = Next (mkFilter [] dn FReturned
              (map ChSend (vs ++ List.filter keep input) ++ [ChClose])).
Proof.
  induction input as [|data rest IH]; intros vs.
  - simpl. unfold filter_return, chan_close. simpl.
    rewrite closed_sends, app_nil_r. reflexivity.
  - simpl. destruct (keep data) eqn:Hk; simpl; rewrite Hk.
    + unfold chan_send. simpl. rewrite closed_sends.
      replace (map ChSend vs ++ [ChSend data])
        with (map ChSend (vs ++ [data])) by (rewrite map_app; reflexivity).
      rewrite IH, <- app_assoc. reflexivity.
    + apply IH.
Qed.

(** X16.  A filter stage loses nothing on its own: from every state it
    reaches, the schedule that lets it go on through its input without
    the [done] case brings it to its return, and by then it has sent
    every value of the input that passes its test, in order. *)
Theorem filter_stage_can_complete (keep : Z -> bool) (input : list Z)
    (sched : list filter_event) (s : filter_state)
    (Hrun : run (filter_step keep) sched (filter_init input) = Next s)
    (Hlive : f_pc s <> FReturned) :
  run (filter_step keep) (filter_rest_schedule keep s) s
  = Next (mkFilter [] (f_done s) FReturned
            (map ChSend (List.filter keep input) ++ [ChClose])).
Proof.
  destruct (filter_run_inv keep input sched s Hrun) as [vs Hinv].
  destruct s as [inp dn pc out]. unfold filter_rest_schedule. simpl in *.
  destruct pc as [|data|]; [| |congruence].
  - destruct Hinv as (-> & Hvs).
    rewrite filter_schedule_run_from, Hvs. reflexivity.
  - destruct Hinv as (-> & Hk & Hvs).
    cbn [run]. unfold filter_step at 1, chan_send. simpl.
    rewrite closed_sends.
    replace (map ChSend vs ++ [ChSend data])
      with (map ChSend (vs ++ [data])) by (rewrite map_app; reflexivity).
    rewrite filter_schedule_run_from, <- app_assoc. simpl. rewrite Hvs.
    reflexivity.
Qed.

Lemma filter_stage_can_complete_witness :
  let s := mkFilter [5; 6] true (FSending 3) [] in
  run (filter_step special_keep) (filter_rest_schedule special_keep s) s
  = Next (mkFilter [] (f_done s) FReturned
            (map ChSend (List.filter special_keep [0; 3; 5; 6]) ++ [ChClose])).
Proof.
  apply (filter_stage_can_complete special_keep [0; 3; 5; 6]
           [FTakeInput; FCancel; FTakeInput]).
  - reflexivity.
  - discriminate.
Defined.

(** ** The buffering stage while [done] is open *)

Lemma cancel_free_step (e : buffer_event) (s s' : buffer_state) :
  is_cancel e = false -> b_done s = false ->
  b_drainer s <> DReturned ->
  buffer_step e s = Next s' ->
  b_done s' = false /\ b_drainer s' <> DReturned.
Proof.
  intros He Hdone Hlive.
  destruct s as [inp dn buf wg la cpc dpc kpc out]; buffer_simpl. subst dn.
  destruct e; try discriminate; unfold buffer_step; buffer_simpl.
  - unfold buffer_launch; buffer_simpl.
    destruct la as [|[[]|w delta] la]; try discriminate;
      try (intros [= <-]; buffer_simpl; split; [reflexivity|congruence]).
    unfold wg_add. destruct (wg + delta <? 0); [discriminate|].
    intros [= <-]. auto.
  - destruct cpc; try discriminate.
    destruct inp; [|intros [= <-]; auto].
    unfold collector_return, wg_add; buffer_simpl.
    destruct (wg + -1 <? 0); [discriminate|]. intros [= <-]. auto.
  - destruct cpc; try discriminate.
    destruct (call (Push data) buf) as [[[] r]|f]; [|discriminate].
    intros [= <-]. auto.
  - destruct cpc; discriminate.
  - destruct dpc; try discriminate.
    destruct (call load_pos buf) as [[p r]|f]; [|discriminate].
    destruct (p <? 0); intros [= <-]; buffer_simpl;
      split; [reflexivity|discriminate|reflexivity|discriminate].
  - destruct dpc; try discriminate.
    destruct (call Get_locked buf) as [[[data|] r]|f]; try discriminate;
      intros [= <-]; buffer_simpl; (split; [reflexivity|]);
      [unfold range_from; destruct (0 <? length data)%nat|]; discriminate.
  - destruct dpc; try discriminate.
    destruct (array buf !! i); [|discriminate]. intros [= <-].
    buffer_simpl. split; [reflexivity|discriminate].
  - destruct dpc; try discriminate.
    destruct (chan_send v out); [|discriminate]. intros [= <-].
    buffer_simpl. split; [reflexivity|].
    unfold range_from. destruct (S i <? n)%nat; discriminate.
  - destruct dpc; discriminate.
  - destruct kpc; try discriminate. destruct (wg =? 0); [|discriminate].
    intros [= <-]. auto.
  - destruct kpc; try discriminate.
    destruct (chan_close out); [|discriminate]. intros [= <-]. auto.
Qed.

(** X17.  The buffering stage does not end by the end of its input: under
    every schedule in which [done] is not closed, the drainer has not
    returned and the output is open, also after the input channel has
    been closed and the collector has returned. *)
Theorem buffer_stage_open_until_cancel (i d : chan) (n : nat)
    (r : RingIntBuffer) (input : list Z)
    (sched : list buffer_event) (s : buffer_state)
    (Hnew : NewRingIntBuffer bufferSize = Ok r)
    (Hfree : cancel_free sched = true)
    (Hrun : run buffer_step sched
              (buffer_init (actions (bufferStageInt i d) n) r input)
            = Next s) :
  b_done s = false /\ b_drainer s <> DReturned /\
  b_closer s <> KReturned /\ closed (b_output s) = false.
Proof.
  pose proof (bufferStageInt_program i d n) as Hprog.
  assert (Hinv : buffer_inv (actions (bufferStageInt i d) n) s).
  { revert Hrun. apply run_keeps.
    - intros e s1 s2. apply buffer_step_keeps. assumption.
    - apply buffer_inv_init, new_buffer_ok. assumption. }
  assert (Hgen : forall sched s0 s1,
             cancel_free sched = true ->
             b_done s0 = false -> b_drainer s0 <> DReturned ->
             run buffer_step sched s0 = Next s1 ->
             b_done s1 = false /\ b_drainer s1 <> DReturned).
  { clear. induction sched as [|e sched IH]; intros s0 s1 Hs Hd Hl; simpl.
    - intros [= <-]. auto.
    - simpl in Hs. apply andb_true_iff in Hs as [He Hs].
      apply negb_true_iff in He.
      destruct (buffer_step e s0) as [s2| |f] eqn:Hstep; try discriminate.
      destruct (cancel_free_step e s0 s2 He Hd Hl Hstep) as [H1 H2].
      apply IH; assumption. }
  destruct (Hgen sched
              (buffer_init (actions (bufferStageInt i d) n) r input) s
              Hfree eq_refl ltac:(discriminate) Hrun) as [Hd Hl].
  split; [assumption|]. split; [assumption|].
  assert (Hopen : closed (b_output s) = false).
  { destruct (closed (b_output s)) eqn:Hcl; [|reflexivity].
    destruct (buffer_closed_quiet _ Hprog s Hinv Hcl) as (_ & _ & Hdr & _).
    contradiction. }
  split; [|assumption].
  intros Hk. destruct Hinv as (_ & _ & (vs & Hout) & _).
  rewrite Hout, Hk, closed_app in Hopen. simpl in Hopen.
  rewrite orb_true_r in Hopen. discriminate.
Qed.

Lemma buffer_stage_open_until_cancel_witness :
  let s := mkBuffer [] false (mkRing [3; 0; 0; 0; 0; 0; 0; 0; 0; 0] 0 10 false)
             1 [] CReturned DSelect KWait [] in
  b_done s = false /\ b_drainer s <> DReturned /\
  b_closer s <> KReturned /\ closed (b_output s) = false.
Proof.
  apply (buffer_stage_open_until_cancel 3%nat 1%nat 4%nat
           (mkRing (replicate 10 0) (-1) 10 false) [3]
           (launch_schedule ++
            [BCollectorInput; BCollectorPush; BCollectorInput])).
  - reflexivity.
  - reflexivity.
  - vm_compute. reflexivity.
Defined.
